(** * PayWay: the asynchronous charge-processing pipeline

    A shallow embedding of [src/utils/queue.js], [src/utils/worker.js], the
    [charges] table of the schema and the single-charge routes of
    [src/routes/charges.js], followed by the properties of the pipeline.

    Layout:
    - JavaScript values as far as the sources test them;
    - the [charges] table and the SQL statements the sources send;
    - [Async]: asynchronous programs (awaits as suspension points,
      exceptions, try/catch);
    - the database as the process sees it, and one program run alone;
    - [Queue], [Worker], [Charges]: the three source modules;
    - [EventLoop]: the process as a whole, settlements and request
      handlers interleaved at their awaits;
    - the theorems. *)

From stdpp Require Import gmap strings list.
From Stdlib Require Import ZArith Ascii.

Local Open Scope Z_scope.

(** ** JavaScript values *)

(** The values a request body field or a job field can hold.  Objects are
    kept as flat string-to-string records, enough for charge metadata. *)
Inductive jsval :=
| JUndefined
| JNull
| JBool (b : bool)
| JNum (n : Z)
| JStr (s : string)
| JObject (fields : list (string * string)).

(** [!v] is [negb (truthy v)]. *)
Definition truthy (v : jsval) : bool :=
  match v with
  | JUndefined | JNull => false
  | JBool b => b
  | JNum n => negb (n =? 0)
  | JStr s => negb (String.eqb s "")
  | JObject _ => true
  end.

(** [v === 'lit'] against a string literal. *)
Definition strict_eq_str (v : jsval) (lit : string) : bool :=
  match v with
  | JStr s => String.eqb s lit
  | _ => false
  end.

(** [typeof v === 'object'] ([null] included, as in JavaScript). *)
Definition typeof_object (v : jsval) : bool :=
  match v with
  | JNull | JObject _ => true
  | _ => false
  end.

(** Truthiness of fields the model keeps typed: [undefined], [0] and the
    empty string are the falsy ones. *)
Definition truthy_num (v : option Z) : bool :=
  match v with Some n => negb (n =? 0) | None => false end.

Definition truthy_str (v : option string) : bool :=
  match v with Some s => negb (String.eqb s "") | None => false end.

(** ** The charges table *)

(** [status VARCHAR(50) NOT NULL DEFAULT 'pending'
     -- pending, succeeded, failed, authorized, captured] *)
Inductive Status := pending | succeeded | failed | authorized | captured.

Definition Status_eqb (a b : Status) : bool :=
  match a, b with
  | pending, pending | succeeded, succeeded | failed, failed
  | authorized, authorized | captured, captured => true
  | _, _ => false
  end.

(** One row of [charges]; the columns in the order of the schema. *)
Record Row := mkRow {
  c_id : string;                              (* VARCHAR(255) PRIMARY KEY *)
  c_merchant_id : string;                     (* REFERENCES merchants *)
  c_amount : Z;                               (* INTEGER NOT NULL *)
  c_currency : string;                        (* VARCHAR(3) NOT NULL *)
  c_status : Status;
  c_description : option string;              (* TEXT *)
  c_metadata : option jsval;                  (* JSONB *)
  c_created_at : Z                            (* DEFAULT CURRENT_TIMESTAMP *)
}.

Definition set_status (st : Status) (r : Row) : Row :=
  mkRow (c_id r) (c_merchant_id r) (c_amount r) (c_currency r) st
        (c_description r) (c_metadata r) (c_created_at r).

Definition set_metadata (md : jsval) (r : Row) : Row :=
  mkRow (c_id r) (c_merchant_id r) (c_amount r) (c_currency r) (c_status r)
        (c_description r) (Some md) (c_created_at r).

(** The table, keyed by its primary key. *)
Abbreviation Table := (gmap string Row).

(** The statements the sources send to [db.query], with their parameters.
    A parameter that is [undefined] in JavaScript is bound as NULL. *)
Inductive query :=
(* INSERT INTO charges(id, merchant_id, amount, currency, status, description)
   VALUES($1, $2, $3, $4, $5, $6) *)
| InsertCharge (id merchant_id : string) (amount : option Z)
               (currency : option string) (st : Status)
               (description : option string)
(* UPDATE charges SET status = $1 WHERE id = $2 *)
| UpdateStatusById (st : Status) (id : string)
(* UPDATE charges SET status = $1 WHERE id = $2 AND merchant_id = $3 RETURNING * *)
| UpdateStatus (st : Status) (id merchant_id : string)
(* UPDATE charges SET metadata = $1 WHERE id = $2 AND merchant_id = $3 RETURNING * *)
| UpdateMetadata (md : jsval) (id merchant_id : string)
(* SELECT * FROM charges WHERE id = $1 AND merchant_id = $2 *)
| SelectCharge (id merchant_id : string)
(* SELECT status FROM charges WHERE id = $1 AND merchant_id = $2 *)
| SelectStatus (id merchant_id : string).

(** The row with key [id] when it also belongs to [merchant_id]. *)
Definition owned (t : Table) (id merchant_id : string) : option Row :=
  match t !! id with
  | Some r => if String.eqb (c_merchant_id r) merchant_id then Some r else None
  | None => None
  end.

(** [INTEGER]: a signed 32-bit value. *)
Definition in_integer (n : Z) : bool :=
  (-2147483648 <=? n) && (n <=? 2147483647).

Fixpoint all_spaces (s : string) : bool :=
  match s with
  | EmptyString => true
  | String a s' => Ascii.eqb a " "%char && all_spaces s'
  end.

(** [VARCHAR(n)]: the value as stored.  A value of more than [n]
    characters is an error, unless what exceeds is spaces only, which are
    cut off. *)
Definition varchar (n : nat) (s : string) : option string :=
  if (String.length s <=? n)%nat then Some s
  else if all_spaces (String.substring n (String.length s - n) s)
       then Some (String.substring 0 n s)
       else None.

(** What the database does with a statement it accepts: the new table and
    the rows it hands back.  [None] is a constraint violation of
    [CREATE TABLE charges]: duplicate primary key, NULL in a NOT NULL
    column, amount out of the INTEGER range, a value wider than its
    VARCHAR column, a merchant that is not in [merchants].  [ms] is the
    [merchant_id] column of the [merchants] table, [now] is
    CURRENT_TIMESTAMP.  The keys of the table are values of the [id]
    column, so an id found in it is refused as a duplicate as it is. *)
Definition exec_query (ms : gset string) (now : Z) (q : query) (t : Table)
  : option (Table * list Row) :=
  match q with
  | InsertCharge id m amount currency st description =>
      match t !! id, varchar 255 id, varchar 255 m, amount,
            currency ≫= varchar 3 with
      | None, Some id', Some m', Some a, Some c' =>
          match t !! id' with
          | None =>
              if in_integer a && bool_decide (m' ∈ ms)
              then Some (<[id' := mkRow id' m' a c' st description None now]> t, [])
              else None
          | Some _ => None
          end
      | _, _, _, _, _ => None
      end
  | UpdateStatusById st id =>
      Some (alter (set_status st) id t, [])
  | UpdateStatus st id m =>
      match owned t id m with
      | Some r => Some (<[id := set_status st r]> t, [set_status st r])
      | None => Some (t, [])
      end
  | UpdateMetadata md id m =>
      match owned t id m with
      | Some r => Some (<[id := set_metadata md r]> t, [set_metadata md r])
      | None => Some (t, [])
      end
  | SelectCharge id m | SelectStatus id m =>
      match owned t id m with
      | Some r => Some (t, [r])
      | None => Some (t, [])
      end
  end.

(** Whether the WHERE clause (or, for an insert, the row written) names
    the owning merchant next to the charge id. *)
Definition scoped_by_merchant (q : query) : bool :=
  match q with
  | UpdateStatusById _ _ => false
  | _ => true
  end.

(** ** Asynchronous programs *)

Module Async.

(** A thrown value: the message of the [Error], or of the database
    error that rejected an awaited [db.query]. *)
Definition exn := string.

Definition store_unavailable : exn := "store unavailable".
Definition constraint_violation : exn := "constraint violation".

(** The body of an [async] function, cut at its awaits.  Between two
    awaits the code runs without interruption; at an await the function
    is suspended and its continuation waits for the outcome. *)
Inductive Prog (A : Type) : Type :=
| Ret (a : A)
| Throw (e : exn)
(* await db.query(q): resumed with the rows, or with the rejection *)
| AwaitQuery (q : query) (k : exn + list Row -> Prog A)
(* await new Promise(resolve => setTimeout(resolve, ms)) *)
| AwaitTimeout (ms : Z) (k : Prog A).

Arguments Ret {A} a.
Arguments Throw {A} e.
Arguments AwaitQuery {A} q k.
Arguments AwaitTimeout {A} ms k.

Fixpoint bind {A B} (p : Prog A) (f : A -> Prog B) : Prog B :=
  match p with
  | Ret a => f a
  | Throw e => Throw e
  | AwaitQuery q k => AwaitQuery q (fun r => bind (k r) f)
  | AwaitTimeout ms k => AwaitTimeout ms (bind k f)
  end.

(** [try { p } catch (err) { h err }] *)
Fixpoint try_catch {A} (p : Prog A) (h : exn -> Prog A) : Prog A :=
  match p with
  | Ret a => Ret a
  | Throw e => h e
  | AwaitQuery q k => AwaitQuery q (fun r => try_catch (k r) h)
  | AwaitTimeout ms k => AwaitTimeout ms (try_catch k h)
  end.

(** [await db.query(q)]: a rejection is rethrown at the await. *)
Definition db_query (q : query) : Prog (list Row) :=
  AwaitQuery q (fun r => match r with inl e => Throw e | inr rows => Ret rows end).

Definition sleep (ms : Z) : Prog unit := AwaitTimeout ms (Ret tt).

#[global] Instance Prog_ret : MRet Prog := @Ret.
#[global] Instance Prog_bind : MBind Prog := fun A B f p => bind p f.

(** Whether the function has run to its end (returned or thrown). *)
Definition finished {A} (p : Prog A) : bool :=
  match p with Ret _ | Throw _ => true | _ => false end.

End Async.
Import Async.

(** ** The database as the process sees it *)

(** [faults] is the environment: one flag per statement still to come,
    [true] when the database will not serve that statement (connection
    lost, server down); past the end of the list no such failure happens.
    [trace] records, oldest first, every statement with its outcome and
    the table it left, and every timer.  [merchants] is the [merchant_id]
    column of the [merchants] table, which nothing modelled here changes. *)
Inductive Event :=
| EvQuery (q : query) (ok : bool) (after : Table)
| EvTimeout (ms : Z).

Record World := mkWorld {
  table : Table;
  clock : Z;
  faults : list bool;
  trace : list Event;
  merchants : gset string
}.

(** Modelled from the spec: [utils/db.js], the module behind [db.query],
    is not among the sources.  The charge store is taken as the spec and
    the schema give it: the statement goes to the database that holds the
    [charges] table; the promise resolves with the rows or rejects when
    the database raises an error; a rejected statement changes nothing. *)
Definition perform_query (q : query) (w : World) : (exn + list Row) * World :=
  match faults w with
  | true :: fs =>
      (inl store_unavailable,
       mkWorld (table w) (clock w) fs (trace w ++ [EvQuery q false (table w)])
               (merchants w))
  | fs =>
      match exec_query (merchants w) (clock w) q (table w) with
      | Some (t', rows) =>
          (inr rows, mkWorld t' (clock w) (tail fs) (trace w ++ [EvQuery q true t'])
                             (merchants w))
      | None =>
          (inl constraint_violation,
           mkWorld (table w) (clock w) (tail fs)
                   (trace w ++ [EvQuery q false (table w)]) (merchants w))
      end
  end.

(** A timer of [ms] expires. *)
Definition perform_timeout (ms : Z) (w : World) : World :=
  mkWorld (table w) (clock w + ms) (faults w) (trace w ++ [EvTimeout ms])
          (merchants w).

(** A suspended program is resumed once: its await is served and it runs
    on to its next await, or to its end. *)
Definition advance {A} (p : Prog A) (w : World) : Prog A * World :=
  match p with
  | AwaitQuery q k => let '(r, w') := perform_query q w in (k r, w')
  | AwaitTimeout ms k => (k, perform_timeout ms w)
  | _ => (p, w)
  end.

(** The program alone with the database: every await is served at once. *)
Fixpoint run {A} (p : Prog A) (w : World) : (exn + A) * World :=
  match p with
  | Ret a => (inr a, w)
  | Throw e => (inl e, w)
  | AwaitQuery q k => let '(r, w') := perform_query q w in run (k r) w'
  | AwaitTimeout ms k => run k (perform_timeout ms w)
  end.

(** The statements of a trace, oldest first. *)
Definition queries_of (tr : list Event) : list query :=
  omap (fun e => match e with EvQuery q _ _ => Some q | EvTimeout _ => None end) tr.

(** No statement still to come is marked for rejection. *)
Definition store_up (w : World) : bool := forallb negb (faults w).

(** ** The process *)

(** The payload of a job: the charge object of the facade spread out,
    with the payment source next to it. *)
Record JobData := mkJobData {
  d_id : string;
  d_merchant_id : string;
  d_amount : option Z;
  d_currency : option string;
  d_status : Status;
  d_description : option string;
  d_source : jsval
}.

Record Job := mkJob { j_type : string; j_data : JobData }.

(** The charge object the facade builds and answers with. *)
Record Charge := mkCharge {
  ch_id : string;
  ch_merchant_id : string;
  ch_amount : option Z;
  ch_currency : option string;
  ch_status : Status;
  ch_description : option string
}.

Inductive ResBody :=
| ErrorBody (error : string)
| ChargeBody (c : Charge)
| RowBody (r : option Row).          (* rows[0] *)

(** [res.status(code).json(body)] *)
Record Response := mkRes { res_status : Z; res_body : ResBody }.

(** A started asynchronous function that has not run to its end. *)
Inductive Task :=
| Settlement (p : Prog unit)         (* a call of processJob *)
| Request (p : Prog Response).       (* a route handler *)

(** The state of the Node process.
    - [queue]: the array [const queue = []] of queue.js;
    - [console]: the lines written by [console.log];
    - [intervals]: the periods of the timers armed by [setInterval];
    - [inflight]: the asynchronous functions suspended at an await;
    - [rejections]: what the promises nobody awaits were rejected with;
      the process has exited as soon as there is one;
    - [responses]: the answers sent. *)
Record Process := mkProcess {
  queue : list Job;
  console : list string;
  world : World;
  intervals : list Z;
  inflight : list Task;
  rejections : list exn;
  responses : list Response
}.

Definition set_queue (q : list Job) (s : Process) : Process :=
  mkProcess q (console s) (world s) (intervals s) (inflight s)
            (rejections s) (responses s).

Definition log (line : string) (s : Process) : Process :=
  mkProcess (queue s) (console s ++ [line]) (world s) (intervals s)
            (inflight s) (rejections s) (responses s).

Definition set_world (w : World) (s : Process) : Process :=
  mkProcess (queue s) (console s) w (intervals s) (inflight s)
            (rejections s) (responses s).

Definition set_interval (ms : Z) (s : Process) : Process :=
  mkProcess (queue s) (console s) (world s) (intervals s ++ [ms])
            (inflight s) (rejections s) (responses s).

Definition set_inflight (ts : list Task) (s : Process) : Process :=
  mkProcess (queue s) (console s) (world s) (intervals s) ts
            (rejections s) (responses s).

(** A promise that nobody handles is rejected ([processJob] is called
    without [await] or [catch], and no [unhandledRejection] listener is
    installed): Node raises the rejection as an uncaught exception and
    the process exits.  Its timers and its suspended functions are gone;
    what was in the queue stays there for ever. *)
Definition reject (e : exn) (s : Process) : Process :=
  mkProcess (queue s) (console s) (world s) [] []
            (rejections s ++ [e]) (responses s).

(** The process has not exited. *)
Definition running (s : Process) : bool :=
  match rejections s with [] => true | _ => false end.

Definition respond (r : Response) (s : Process) : Process :=
  mkProcess (queue s) (console s) (world s) (intervals s) (inflight s)
            (rejections s) (responses s ++ [r]).

(** An asynchronous function has been called, or resumed, and has run up
    to [t]: at its end it settles its promise, otherwise it waits. *)
Definition park (t : Task) (s : Process) : Process :=
  match t with
  | Settlement (Ret _) => s
  | Request (Ret r) => respond r s
  | Settlement (Throw e) | Request (Throw e) => reject e s
  | _ => set_inflight (inflight s ++ [t]) s
  end.

(** ** src/utils/queue.js *)

Module Queue.

Definition enqueue (job : Job) (s : Process) : Process :=
  let s := log ("Adding job to queue: " +:+ j_type job +:+
                " for charge " +:+ d_id (j_data job)) s in
  set_queue (queue s ++ [job]) s.

(** [queue.shift()]: [None] is the [undefined] of an empty array. *)
Definition dequeue (s : Process) : option Job * Process :=
  match queue s with
  | [] => (None, s)
  | job :: rest => (Some job, set_queue rest s)
  end.

End Queue.

(** ** src/utils/worker.js *)

Module Worker.

Definition processJob (job : Job) : Prog unit :=
  if String.eqb (j_type job) "process_charge" then
    let d := j_data job in
    try_catch
      (if negb (truthy (d_source d))
          || negb (strict_eq_str (d_source d) "valid_token")
       then Throw "Invalid source"
       else
         _ ← db_query (InsertCharge (d_id d) (d_merchant_id d) (d_amount d)
                         (d_currency d) pending (d_description d));
         _ ← sleep 2000;
         _ ← db_query (UpdateStatusById succeeded (d_id d));
         Ret tt)
      (fun err =>
         _ ← db_query (InsertCharge (d_id d) (d_merchant_id d) (d_amount d)
                         (d_currency d) failed (d_description d));
         Ret tt)
  else Ret tt.

(** The function handed to [setInterval]: one firing of the timer.  The
    promise of [processJob] is dropped, not awaited. *)
Definition tick (s : Process) : Process :=
  let '(job, s) := Queue.dequeue s in
  match job with
  | Some job => park (Settlement (processJob job)) s
  | None => s
  end.

Definition startWorker (s : Process) : Process :=
  let s := log "Worker started. Listening for jobs..." s in
  set_interval 3000 s.

End Worker.

(** ** src/routes/charges.js: the facade *)

(** [req.body], with the fields the handlers read. *)
Record Body := mkBody {
  b_amount : option Z;
  b_currency : option string;
  b_source : jsval;
  b_description : option string;
  b_metadata : jsval
}.

Module Charges.

(** The middlewares of [utils/validation]: answer 400, or call [next]. *)
Definition validateCharge {T} (body : Body) (res : Response -> T) (next : T) : T :=
  if negb (truthy_num (b_amount body))
     || negb (truthy_str (b_currency body))
     || negb (truthy (b_source body))
  then res (mkRes 400 (ErrorBody "Amount, currency, and source are required."))
  else next.

Definition validateMetadata {T} (body : Body) (res : Response -> T) (next : T) : T :=
  if negb (truthy (b_metadata body)) || negb (typeof_object (b_metadata body))
  then res (mkRes 400 (ErrorBody "Metadata must be an object."))
  else next.

(** [{ ...charge, source }] *)
Definition job_data (c : Charge) (source : jsval) : JobData :=
  mkJobData (ch_id c) (ch_merchant_id c) (ch_amount c) (ch_currency c)
            (ch_status c) (ch_description c) source.

(** [router.post('/', validateCharge, ...)].  [uuid] is the value of
    [uuidv4()], [merchantId] is [req.auth.merchant_id].  The handler has
    no await: it runs in one piece. *)
Definition create (uuid merchantId : string) (body : Body) (s : Process) : Process :=
  validateCharge body (fun r => respond r s)
    (let charge := mkCharge ("ch_" +:+ uuid) merchantId (b_amount body)
                            (b_currency body) pending (b_description body) in
     let s := Queue.enqueue
                (mkJob "process_charge" (job_data charge (b_source body))) s in
     respond (mkRes 202 (ChargeBody charge)) s).

(** [router.get('/:id', ...)] *)
Definition retrieve (id merchantId : string) : Prog Response :=
  try_catch
    (rows ← db_query (SelectCharge id merchantId);
     match rows with
     | [] => Ret (mkRes 404 (ErrorBody "Charge not found or is still being processed."))
     | r :: _ => Ret (mkRes 200 (RowBody (Some r)))
     end)
    (fun err => Ret (mkRes 500 (ErrorBody "Internal Server Error"))).

(** [router.post('/:id', validateMetadata, ...)] *)
Definition update_metadata (id merchantId : string) (body : Body) : Prog Response :=
  validateMetadata body Ret
    (try_catch
       (rows ← db_query (UpdateMetadata (b_metadata body) id merchantId);
        match rows with
        | [] => Ret (mkRes 404 (ErrorBody "Charge not found or not authorized."))
        | r :: _ => Ret (mkRes 200 (RowBody (Some r)))
        end)
       (fun err => Ret (mkRes 500 (ErrorBody "Internal Server Error")))).

(** [router.post('/:id/capture', ...)] *)
Definition capture (id merchantId : string) : Prog Response :=
  try_catch
    (chargeRows ← db_query (SelectStatus id merchantId);
     match chargeRows with
     | [] => Ret (mkRes 404 (ErrorBody "Charge not found or not authorized."))
     | r :: _ =>
         if negb (Status_eqb (c_status r) authorized) then
           Ret (mkRes 400 (ErrorBody "Charge cannot be captured: Status is not authorized."))
         else
           rows ← db_query (UpdateStatus captured id merchantId);
           Ret (mkRes 200 (RowBody (head rows)))
     end)
    (fun err => Ret (mkRes 500 (ErrorBody "Internal Server Error"))).

End Charges.

(** ** The event loop *)

Module EventLoop.

(** The [i]-th suspended function is resumed. *)
Definition resume (i : nat) (s : Process) : Process :=
  match inflight s !! i with
  | Some (Settlement p) =>
      let '(p', w) := advance p (world s) in
      park (Settlement p') (set_world w (set_inflight (delete i (inflight s)) s))
  | Some (Request p) =>
      let '(p', w) := advance p (world s) in
      park (Request p') (set_world w (set_inflight (delete i (inflight s)) s))
  | None => s
  end.

(** What can happen next in the process: an armed timer fires, a
    suspended function is resumed, a request reaches the running
    process.  A process that has exited has no timer and no suspended
    function left and takes no request. *)
Inductive step : Process -> Process -> Prop :=
| step_tick s :
    intervals s ≠ [] -> step s (Worker.tick s)
| step_resume s i :
    is_Some (inflight s !! i) -> step s (resume i s)
| step_create s uuid merchantId body :
    running s = true ->
    step s (Charges.create uuid merchantId body s)
| step_retrieve s id merchantId :
    running s = true ->
    step s (park (Request (Charges.retrieve id merchantId)) s)
| step_update_metadata s id merchantId body :
    running s = true ->
    step s (park (Request (Charges.update_metadata id merchantId body)) s)
| step_capture s id merchantId :
    running s = true ->
    step s (park (Request (Charges.capture id merchantId)) s).

Definition steps : Process -> Process -> Prop := rtc step.

(** The process right after [worker.js] has been loaded. *)
Definition boot (w : World) : Process :=
  Worker.startWorker (mkProcess [] [] w [] [] [] []).

End EventLoop.

(** ** The vocabulary of the properties *)

(** A caller's view of the queue: a history of calls. *)
Inductive qop := Enq (job : Job) | Deq.

(** The jobs a history hands to [enqueue], in call order. *)
Definition enqueued (ops : list qop) : list Job :=
  omap (fun o => match o with Enq job => Some job | Deq => None end) ops.

(** The history is played against the queue; the jobs the [dequeue] calls
    returned come back in call order, with the process left behind. *)
Fixpoint play (ops : list qop) (s : Process) : list Job * Process :=
  match ops with
  | [] => ([], s)
  | Enq job :: ops => play ops (Queue.enqueue job s)
  | Deq :: ops =>
      let '(r, s) := Queue.dequeue s in
      let '(out, s) := play ops s in
      (match r with Some job => job :: out | None => out end, s)
  end.



Definition insert_of (d : JobData) (st : Status) : query :=
  InsertCharge (d_id d) (d_merchant_id d) (d_amount d) (d_currency d) st
               (d_description d).

Definition finalize_of (d : JobData) : query :=
  UpdateStatusById succeeded (d_id d).


(** [r'] is [r] up to status and metadata. *)
Definition same_charge (r r' : Row) : Prop :=
  c_id r' = c_id r /\
  c_merchant_id r' = c_merchant_id r /\
  c_amount r' = c_amount r /\
  c_currency r' = c_currency r /\
  c_description r' = c_description r /\
  c_created_at r' = c_created_at r.

(** Every row of [t] is still in [t'], changed in status and metadata at
    most. *)
Definition kept (t t' : Table) : Prop :=
  forall id r, t !! id = Some r -> exists r', t' !! id = Some r' /\ same_charge r r'.

(** The merchants of the examples. *)
Definition merchants0 : gset string := {[ "m_1"%string; "m_2"%string ]}.

(** The charge of scenario 1. *)
Definition job_ch1 : Job :=
  mkJob "process_charge"
        (mkJobData "ch_1" "m_1" (Some 500) (Some "usd"%string) pending None
                   (JStr "valid_token")).

(** An empty store that fails the second statement it is sent. *)
Definition outage_at_finalize : World := mkWorld ∅ 0 [false; true] [] merchants0.

(** Every statement a program can ever send satisfies [P]. *)
Inductive sends_only {A} (P : query -> Prop) : Prog A -> Prop :=
| sends_ret a : sends_only P (Ret a)
| sends_throw e : sends_only P (Throw e)
| sends_query q k :
    P q -> (forall r, sends_only P (k r)) -> sends_only P (AwaitQuery q k)
| sends_timeout ms k : sends_only P k -> sends_only P (AwaitTimeout ms k).

(** An insert creates the row as [pending] or as [failed]; the other
    statements create nothing. *)
Definition born_ok (q : query) : Prop :=
  match q with
  | InsertCharge _ _ _ _ st _ => st = pending \/ st = failed
  | _ => True
  end.

Definition task_sends_only (P : query -> Prop) (t : Task) : Prop :=
  match t with
  | Settlement p => sends_only P p
  | Request p => sends_only P p
  end.

(** A table in which the charge [ch_1] belongs to another merchant. *)
Definition foreign_table : Table :=
  {[ "ch_1"%string := mkRow "ch_1" "m_2" 900 "eur" pending None None 0 ]}.

(** An empty, healthy store at time 0, and the process just booted on it. *)
Definition world0 : World := mkWorld ∅ 0 [] [] merchants0.
Definition process0 : Process := EventLoop.boot world0.

(** Scenario 2: a rejected token. *)
Definition job_ch2 : Job :=
  mkJob "process_charge"
        (mkJobData "ch_2" "m_1" (Some 500) (Some "usd"%string) pending None
                   (JStr "bad_token")).

(** A job of a type the worker does not know. *)
Definition job_other : Job :=
  mkJob "send_receipt"
        (mkJobData "ch_9" "m_1" (Some 500) (Some "usd"%string) pending None
                   (JStr "valid_token")).

Definition body1 : Body :=
  mkBody (Some 500) (Some "usd"%string) (JStr "valid_token") None JUndefined.

(** A process whose store holds an authorized charge. *)
Definition process_authorized : Process :=
  mkProcess [] []
    (mkWorld {[ "ch_7"%string := mkRow "ch_7" "m_1" 500 "usd" authorized None None 0 ]}
             0 [] [] merchants0)
    [3000] [] [] [].

(** ** The vocabulary of the further properties *)

(** The jobs the loop hands to [processJob], in queue order. *)
Definition is_process_charge (job : Job) : bool :=
  String.eqb (j_type job) "process_charge".

(** A [process_charge] job whose amount and currency are not NULL. *)
Definition insertable (job : Job) : bool :=
  match d_amount (j_data job), d_currency (j_data job) with
  | Some _, Some _ => is_process_charge job
  | _, _ => false
  end.





(** The statement carries [merchant_id = m] in its WHERE clause. *)
Definition of_merchant (m : string) (q : query) : Prop :=
  match q with
  | UpdateStatus _ _ m' | UpdateMetadata _ _ m'
  | SelectCharge _ m' | SelectStatus _ m' => m' = m
  | _ => False
  end.

(** From [t] to [t'] no row of a merchant other than [m] has changed
    and no row has appeared. *)
Definition others_untouched (m : string) (t t' : Table) : Prop :=
  forall id,
    match t !! id with
    | Some r => c_merchant_id r <> m -> t' !! id = Some r
    | None => t' !! id = None
    end.

(** The statuses the worker writes. *)
Definition pipeline_status (st : Status) : bool :=
  match st with
  | pending | succeeded | failed => true
  | authorized | captured => false
  end.

Definition pipeline_table (t : Table) : Prop :=
  forall id r, t !! id = Some r -> pipeline_status (c_status r) = true.

Definition pipeline_reply (r : exn + list Row) : Prop :=
  match r with
  | inl _ => True
  | inr rows => Forall (fun row => pipeline_status (c_status row) = true) rows
  end.

Definition pipeline_write (q : query) : Prop :=
  match q with
  | InsertCharge _ _ _ _ st _ | UpdateStatusById st _ | UpdateStatus st _ _ =>
      pipeline_status st = true
  | _ => True
  end.

(** A program that, as long as the database only shows it rows in the
    worker's statuses, only writes the worker's statuses. *)
Inductive tame {A} : Prog A -> Prop :=
| tame_ret a : tame (Ret a)
| tame_throw e : tame (Throw e)
| tame_query q k :
    pipeline_write q -> (forall r, pipeline_reply r -> tame (k r)) ->
    tame (AwaitQuery q k)
| tame_timeout ms k : tame k -> tame (AwaitTimeout ms k).

Definition task_tame (t : Task) : Prop :=
  match t with
  | Settlement p => tame p
  | Request p => tame p
  end.

(** A job as the creation route builds it from a validated body. *)
Definition facade_job (job : Job) : bool :=
  is_process_charge job
  && truthy_num (d_amount (j_data job))
  && truthy_str (d_currency (j_data job))
  && truthy (d_source (j_data job))
  && Status_eqb (d_status (j_data job)) pending
  && String.prefix "ch_" (d_id (j_data job)).




(** From [t] to [t'] every row of [t] is as it was, and a row that has
    appeared is the row of the job: its key and its merchant are the id
    and the merchant of the job, as the columns store them. *)
Definition only_own_row (d : JobData) (t t' : Table) : Prop :=
  forall i,
    match t !! i with
    | Some r => t' !! i = Some r
    | None => forall r, t' !! i = Some r ->
                varchar 255 (d_id d) = Some i /\
                varchar 255 (d_merchant_id d) = Some (c_merchant_id r)
    end.

(** The tables the events of a trace have seen all satisfy [P]. *)
Definition tables_of_trace (P : Table -> Prop) (evs : list Event) : Prop :=
  Forall (fun ev => match ev with
                    | EvQuery _ _ t => P t
                    | EvTimeout _ => True
                    end) evs.






(** Inputs at which the further properties are evaluated. *)
Definition world_foreign : World := mkWorld foreign_table 0 [] [] merchants0.

Definition row_authorized : Row :=
  mkRow "ch_7" "m_1" 500 "usd" authorized None None 0.

Definition world_authorized : World := world process_authorized.

Definition body_metadata : Body :=
  mkBody None None JUndefined None (JObject [("order"%string, "42"%string)]).

(** The process after one creation request, one tick and the first
    resumption of the settlement. *)
Definition process_pending : Process :=
  EventLoop.resume 0 (Worker.tick (Charges.create "u1" "m_1" body1 process0)).

(** * Properties *)

(** ** The queue *)

Lemma enqueue_queue job s : queue (Queue.enqueue job s) = queue s ++ [job].
Proof. reflexivity. Qed.

Lemma dequeue_cons job rest s :
  queue s = job :: rest -> Queue.dequeue s = (Some job, set_queue rest s).
Proof. intros H. unfold Queue.dequeue. by rewrite H. Qed.

Lemma dequeue_nil s : queue s = [] -> Queue.dequeue s = (None, s).
Proof. intros H. unfold Queue.dequeue. by rewrite H. Qed.

(** What went in is what came out followed by what is still waiting. *)
Lemma play_conserves ops : forall s,
  queue s ++ enqueued ops = (play ops s).1 ++ queue (play ops s).2.
Proof.
  induction ops as [|[job|] ops IH]; intros s; simpl.
  - by rewrite app_nil_r.
  - rewrite <- IH, enqueue_queue, <- app_assoc. reflexivity.
  - destruct (queue s) as [|job rest] eqn:Hq.
    + rewrite (dequeue_nil s Hq).
      specialize (IH s). destruct (play ops s) as [out s']. simpl in *.
      by rewrite <- IH, Hq.
    + rewrite (dequeue_cons job rest s Hq).
      specialize (IH (set_queue rest s)).
      destruct (play ops (set_queue rest s)) as [out s']. simpl in *.
      by rewrite <- IH.
Qed.

(** C5. The queue is first-in first-out: [enqueue] is total and appends the
    job at the tail, [dequeue] removes and returns the head, and over any
    history of calls on an initially empty queue, of two jobs the one
    enqueued first is dequeued first: when the later one has come out the
    earlier one has come out before it, at the positions of their enqueues. *)
Theorem queue_fifo (s : Process) (ops : list qop) :
  (forall job, queue (Queue.enqueue job s) = queue s ++ [job]) /\
  (forall job rest, queue s = job :: rest ->
     Queue.dequeue s = (Some job, set_queue rest s) /\
     queue (Queue.dequeue s).2 = rest) /\
  (queue s = [] ->
   forall (i j : nat) (a b : Job),
     (i < j)%nat ->
     enqueued ops !! i = Some a ->
     enqueued ops !! j = Some b ->
     (j < length (play ops s).1)%nat ->
     (play ops s).1 !! i = Some a /\ (play ops s).1 !! j = Some b).
Proof.
  split; [reflexivity|]. split.
  - intros job rest H. rewrite (dequeue_cons job rest s H). done.
  - intros Hq i j a b Hij Ha Hb Hj.
    pose proof (play_conserves ops s) as Hc. rewrite Hq in Hc. simpl in Hc.
    rewrite Hc in Ha, Hb.
    rewrite lookup_app_l in Ha by lia.
    rewrite lookup_app_l in Hb by lia.
    done.
Qed.

(** ** The database under a healthy store *)

Lemma store_up_head w :
  store_up w = true ->
  match faults w with true :: _ => False | _ => True end.
Proof. unfold store_up. by destruct (faults w) as [|[] fs]. Qed.

Lemma perform_query_up q w :
  store_up w = true ->
  perform_query q w =
    match exec_query (merchants w) (clock w) q (table w) with
    | Some (t', rows) =>
        (inr rows,
         mkWorld t' (clock w) (tail (faults w)) (trace w ++ [EvQuery q true t'])
                 (merchants w))
    | None =>
        (inl constraint_violation,
         mkWorld (table w) (clock w) (tail (faults w))
                 (trace w ++ [EvQuery q false (table w)]) (merchants w))
    end.
Proof.
  intros H. apply store_up_head in H. unfold perform_query.
  destruct (faults w) as [|[] fs]; done.
Qed.

Lemma store_up_tail w w' :
  store_up w = true -> faults w' = tail (faults w) -> store_up w' = true.
Proof.
  unfold store_up. intros H ->. destruct (faults w) as [|b fs]; simpl in *; [done|].
  by apply andb_true_iff in H as [_ H].
Qed.

(** A faulted statement leaves the table as it was. *)
Lemma perform_query_fault q w fs :
  faults w = true :: fs ->
  perform_query q w =
    (inl store_unavailable,
     mkWorld (table w) (clock w) fs (trace w ++ [EvQuery q false (table w)])
             (merchants w)).
Proof. intros H. unfold perform_query. by rewrite H. Qed.

(** ** The settlement procedure *)




(** What an accepted insert has checked and done. *)
Lemma exec_insert_inv ms now id m a c st ds t t' rows :
  exec_query ms now (InsertCharge id m a c st ds) t = Some (t', rows) ->
  rows = [] /\ t !! id = None /\
  exists id' m' a' c',
    varchar 255 id = Some id' /\ varchar 255 m = Some m' /\
    a = Some a' /\ c ≫= varchar 3 = Some c' /\
    t !! id' = None /\ in_integer a' = true /\ m' ∈ ms /\
    t' = <[id' := mkRow id' m' a' c' st ds None now]> t.
Proof.
  simpl. destruct (t !! id) eqn:Hid; [done|].
  destruct (varchar 255 id) as [id'|]; [|done].
  destruct (varchar 255 m) as [m'|]; [|done].
  destruct a as [a'|]; [|done].
  destruct (c ≫= varchar 3) as [c'|]; [|done].
  destruct (t !! id') eqn:Hid'; [done|].
  destruct (in_integer a') eqn:Hint; [|done].
  destruct (bool_decide (m' ∈ ms)) eqn:Hms; [|done].
  apply bool_decide_eq_true_1 in Hms. simpl. intros [= <- <-].
  split; [done|]. split; [done|]. exists id', m', a', c'. by repeat split.
Qed.



Lemma merchants_perform_query q w : merchants (perform_query q w).2 = merchants w.
Proof.
  unfold perform_query. destruct (faults w) as [|[] fs]; try done.
  all: by destruct (exec_query _ _ _ _) as [[? ?]|].
Qed.

(** One statement, whatever the environment does to it: it is traced with
    its outcome; rejected, it leaves the table alone and the await throws;
    accepted, table and rows are those of [exec_query]. *)
Lemma perform_query_cases q w :
  exists r ok w',
    perform_query q w = (r, w') /\
    trace w' = trace w ++ [EvQuery q ok (table w')] /\
    clock w' = clock w /\
    (ok = false -> table w' = table w /\ exists e, r = inl e) /\
    (ok = true -> exists rows,
        exec_query (merchants w) (clock w) q (table w) = Some (table w', rows) /\
        r = inr rows /\ faults w' = tail (faults w)).
Proof.
  unfold perform_query.
  destruct (faults w) as [|[] fs] eqn:Hf.
  all: try (destruct (exec_query (merchants w) (clock w) q (table w))
              as [[t' rows]|] eqn:He).
  all: do 3 eexists; (split; [reflexivity|]); simpl.
  all: repeat split; try done; eauto.
Qed.




(** ** The worker loop *)

(** A [process_charge] job always reaches an await: when [processJob]
    hands back its promise the settlement is still under way. *)
Lemma processJob_suspends job :
  j_type job = "process_charge"%string ->
  finished (Worker.processJob job) = false.
Proof.
  intros H. unfold Worker.processJob. rewrite H. simpl.
  by destruct (negb (truthy _) || negb (strict_eq_str _ _)).
Qed.

Lemma processJob_other job :
  j_type job <> "process_charge"%string -> Worker.processJob job = Ret tt.
Proof.
  intros H. unfold Worker.processJob.
  destruct (String.eqb (j_type job) "process_charge") eqn:E; [|done].
  by apply String.eqb_eq in E.
Qed.

(** [processJob] never throws before its first await. *)
Lemma processJob_no_throw job e : Worker.processJob job <> Throw e.
Proof.
  unfold Worker.processJob. destruct (String.eqb _ _); [|done]. simpl.
  by destruct (negb (truthy _) || negb (strict_eq_str _ _)).
Qed.

Lemma tick_cons job rest s :
  queue s = job :: rest ->
  Worker.tick s = park (Settlement (Worker.processJob job)) (set_queue rest s).
Proof. intros H. unfold Worker.tick. by rewrite (dequeue_cons job rest s H). Qed.

Lemma tick_nil s : queue s = [] -> Worker.tick s = s.
Proof. intros H. unfold Worker.tick. by rewrite (dequeue_nil s H). Qed.

(** C8. [dequeue] on an empty queue is no error: it answers "nothing"
    and leaves the queue empty.  A tick that gets this answer changes
    nothing in the process: no statement, no settlement started, no
    rejection, and the timer stays armed, so the loop ticks on and a job
    enqueued later is taken by the next tick. *)
Theorem tick_on_empty_queue (s : Process) :
  queue s = [] ->
  Queue.dequeue s = (None, s) /\
  queue (Queue.dequeue s).2 = [] /\
  Worker.tick s = s /\
  (intervals s <> [] -> EventLoop.step (Worker.tick s) (Worker.tick (Worker.tick s))) /\
  (forall job, queue (Worker.tick (Queue.enqueue job (Worker.tick s))) = []).
Proof.
  intros Hq. rewrite (tick_nil s Hq), (dequeue_nil s Hq). simpl.
  repeat split; try done.
  - intros Hi. by apply EventLoop.step_tick.
  - intros job. rewrite (tick_cons job [] (Queue.enqueue job s)).
    + by destruct (Worker.processJob job).
    + by rewrite enqueue_queue, Hq.
Qed.

(** C9. One firing of the timer: exactly one [dequeue], so the queue
    loses its head at most and at most one settlement is started; the
    tick returns with that settlement still suspended at its first await,
    no statement executed, the settlements already under way untouched and
    the timer armed: the next tick can fire at once. *)
Theorem tick_dispatches_one (s : Process) :
  let s' := Worker.tick s in
  queue s' = tail (queue s) /\
  s' = match (Queue.dequeue s).1 with
       | Some job => park (Settlement (Worker.processJob job)) (Queue.dequeue s).2
       | None => (Queue.dequeue s).2
       end /\
  inflight s' = inflight s ++
    match head (queue s) with
    | Some job => if finished (Worker.processJob job) then []
                  else [Settlement (Worker.processJob job)]
    | None => []
    end /\
  (length (inflight s') <= S (length (inflight s)))%nat /\
  world s' = world s /\
  intervals s' = intervals s /\
  (forall job, head (queue s) = Some job ->
     j_type job = "process_charge"%string ->
     inflight s' = inflight s ++ [Settlement (Worker.processJob job)]) /\
  (intervals s <> [] -> EventLoop.step s' (Worker.tick s')).
Proof.
  intros s'.
  assert (Hshape : queue s' = tail (queue s) /\
    inflight s' = inflight s ++
      match head (queue s) with
      | Some job => if finished (Worker.processJob job) then []
                    else [Settlement (Worker.processJob job)]
      | None => []
      end /\ world s' = world s /\ intervals s' = intervals s).
  { subst s'. destruct (queue s) as [|job rest] eqn:Hq.
    - rewrite (tick_nil s Hq), Hq. by rewrite app_nil_r.
    - rewrite (tick_cons job rest s Hq). simpl.
      pose proof (processJob_no_throw job) as Hnt.
      destruct (Worker.processJob job) as [a|e|q k|ms k]; simpl;
        try by rewrite ?app_nil_r.
      by destruct (Hnt e). }
  destruct Hshape as (Hqueue & Hfl & Hw & Hi).
  split; [done|]. split.
  { subst s'. unfold Worker.tick. by destruct (Queue.dequeue s) as [[job|] s1]. }
  split; [done|]. split.
  { rewrite Hfl, length_app.
    destruct (head (queue s)) as [job|]; [destruct (finished _)|]; simpl; lia. }
  split; [done|]. split; [done|]. split.
  - intros job Hhd Hty. rewrite Hfl, Hhd.
    by rewrite (processJob_suspends job Hty).
  - intros Hne. apply EventLoop.step_tick. by rewrite Hi.
Qed.

(** C10. A dequeued job of another type is dropped: the [dequeue] takes
    it off the queue, [processJob] returns at once without a statement
    and without an error, and the tick leaves the store (and everything
    but the queue) exactly as it was. *)
Theorem other_job_discarded (job : Job) (rest : list Job) (s : Process) (w : World) :
  j_type job <> "process_charge"%string ->
  queue s = job :: rest ->
  Worker.processJob job = Ret tt /\
  run (Worker.processJob job) w = (inr tt, w) /\
  Queue.dequeue s = (Some job, set_queue rest s) /\
  Worker.tick s = set_queue rest s /\
  world (Worker.tick s) = world s /\
  rejections (Worker.tick s) = rejections s /\
  inflight (Worker.tick s) = inflight s.
Proof.
  intros Hty Hq.
  rewrite (tick_cons job rest s Hq), (processJob_other job Hty).
  rewrite (dequeue_cons job rest s Hq). done.
Qed.

(** ** What a persisted charge keeps *)

Lemma same_charge_refl r : same_charge r r.
Proof. by repeat split. Qed.

Lemma same_charge_trans r1 r2 r3 :
  same_charge r1 r2 -> same_charge r2 r3 -> same_charge r1 r3.
Proof. unfold same_charge. intros ? ?. intuition congruence. Qed.

Lemma kept_refl t : kept t t.
Proof. intros id r H. exists r. split; [done|apply same_charge_refl]. Qed.

Lemma kept_trans t1 t2 t3 : kept t1 t2 -> kept t2 t3 -> kept t1 t3.
Proof.
  intros H12 H23 id r H. destruct (H12 id r H) as (r2 & H2 & Hs2).
  destruct (H23 id r2 H2) as (r3 & H3 & Hs3).
  exists r3. split; [done|]. by eapply same_charge_trans.
Qed.

Lemma owned_Some t id m r : owned t id m = Some r -> t !! id = Some r.
Proof.
  unfold owned. destruct (t !! id) as [r0|]; [|done].
  destruct (String.eqb _ _); [|done]. congruence.
Qed.

(** An update in place by a function that keeps the charge. *)
Lemma kept_insert t id r f :
  t !! id = Some r -> same_charge r (f r) -> kept t (<[id := f r]> t).
Proof.
  intros Hr Hf id' r' H'. destruct (decide (id = id')) as [<-|Hne].
  - rewrite lookup_insert_eq. exists (f r). split; [done|]. congruence.
  - rewrite lookup_insert_ne by done. exists r'. split; [done|apply same_charge_refl].
Qed.

(** No statement of the sources touches the kept fields of a stored row. *)
Lemma exec_query_kept ms now q t t' rows :
  exec_query ms now q t = Some (t', rows) -> kept t t'.
Proof.
  destruct q as [id m a c st ds|st id|st id m|md id m|id m|id m];
    [intros He|simpl..].
  - apply exec_insert_inv in He
      as (_ & _ & id0 & m' & a' & c' & _ & _ & _ & _ & Hid0 & _ & _ & ->).
    intros id' r' H'. exists r'. split; [|apply same_charge_refl].
    rewrite lookup_insert_ne; [done|]. congruence.
  - intros [= <- _] id' r' H'. destruct (decide (id = id')) as [<-|Hne].
    + rewrite lookup_alter_eq, H'. simpl. eexists. split; [done|]. by repeat split.
    + rewrite lookup_alter_ne by done. exists r'. split; [done|apply same_charge_refl].
  - destruct (owned t id m) as [r|] eqn:Ho; intros [= <- _]; [|apply kept_refl].
    apply (kept_insert t id r (set_status st)); [by eapply owned_Some|by repeat split].
  - destruct (owned t id m) as [r|] eqn:Ho; intros [= <- _]; [|apply kept_refl].
    apply (kept_insert t id r (set_metadata md)); [by eapply owned_Some|by repeat split].
  - destruct (owned t id m); intros [= <- _]; apply kept_refl.
  - destruct (owned t id m); intros [= <- _]; apply kept_refl.
Qed.

Lemma perform_query_kept q w : kept (table w) (table (perform_query q w).2).
Proof.
  destruct (perform_query_cases q w) as (r & ok & w' & Hq & _ & _ & Hko & Hok).
  rewrite Hq. simpl. destruct ok.
  - destruct (Hok eq_refl) as (rows & He & _). by eapply exec_query_kept.
  - destruct (Hko eq_refl) as [-> _]. apply kept_refl.
Qed.

Lemma advance_kept {A} (p : Prog A) w : kept (table w) (table (advance p w).2).
Proof.
  destruct p as [a|e|q k|ms k]; simpl; try apply kept_refl.
  pose proof (perform_query_kept q w) as H.
  by destruct (perform_query q w).
Qed.

Lemma world_park t s : world (park t s) = world s.
Proof. by destruct t as [[]|[]]. Qed.

Lemma world_tick s : world (Worker.tick s) = world s.
Proof.
  unfold Worker.tick, Queue.dequeue. destruct (queue s); [done|].
  by rewrite world_park.
Qed.

Lemma world_create uuid m body s : world (Charges.create uuid m body s) = world s.
Proof.
  unfold Charges.create, Charges.validateCharge.
  by destruct (_ || _).
Qed.

Lemma step_kept s s' :
  EventLoop.step s s' -> kept (table (world s)) (table (world s')).
Proof.
  intros [s0 _|s0 i _|s0 uuid m body|s0 id m|s0 id m body|s0 id m].
  - rewrite world_tick. apply kept_refl.
  - unfold EventLoop.resume. destruct (inflight s0 !! i) as [[p|p]|]; [| |apply kept_refl].
    + pose proof (advance_kept p (world s0)) as H.
      destruct (advance p (world s0)) as [p' w']. by rewrite world_park.
    + pose proof (advance_kept p (world s0)) as H.
      destruct (advance p (world s0)) as [p' w']. by rewrite world_park.
  - rewrite world_create. apply kept_refl.
  - rewrite world_park. apply kept_refl.
  - rewrite world_park. apply kept_refl.
  - rewrite world_park. apply kept_refl.
Qed.

(** C7. Once a charge is in the store, nothing the process does later (a
    settlement being finalized, a metadata update, a capture, any
    interleaving of them) removes the row or changes its id, merchant,
    amount or currency (nor its description or creation time): status and
    metadata alone can differ. *)
Theorem persisted_charge_immutable (s s' : Process) (id : string) (r : Row) :
  EventLoop.steps s s' ->
  table (world s) !! id = Some r ->
  exists r',
    table (world s') !! id = Some r' /\
    c_id r' = c_id r /\
    c_merchant_id r' = c_merchant_id r /\
    c_amount r' = c_amount r /\
    c_currency r' = c_currency r /\
    c_description r' = c_description r /\
    c_created_at r' = c_created_at r.
Proof.
  intros Hsteps Hr.
  assert (K : kept (table (world s)) (table (world s'))).
  { clear Hr. induction Hsteps as [s|s1 s2 s3 H12 _ IH].
    - apply kept_refl.
    - eapply kept_trans; [by apply step_kept|done]. }
  exact (K id r Hr).
Qed.

(** ** Accepting a charge and reading it back *)

Lemma retrieve_absent id m w :
  store_up w = true -> table w !! id = None ->
  (run (Charges.retrieve id m) w).1 =
    inr (mkRes 404 (ErrorBody "Charge not found or is still being processed.")).
Proof.
  intros Hup Hid. unfold Charges.retrieve. simpl.
  rewrite (perform_query_up _ w Hup). simpl. unfold owned. by rewrite Hid.
Qed.




(** ** Failures inside the settlement procedure *)

Lemma queries_of_query tr q ok t :
  queries_of (tr ++ [EvQuery q ok t]) = queries_of tr ++ [q].
Proof. unfold queries_of. by rewrite omap_app. Qed.



(** C3, at the input that breaks it.  The accepted job of scenario 1, the
    store failing at the finalize update: [processJob] ends with an
    exception instead of returning, the charge is left [pending] and never
    recorded [failed]; run from the worker loop, the rejection of the
    dropped promise is handled by nobody. *)
Theorem finalize_failure_escapes :
  (run (Worker.processJob job_ch1) outage_at_finalize).1 = inl constraint_violation /\
  c_status <$> table (run (Worker.processJob job_ch1) outage_at_finalize).2 !! "ch_1"
    = Some pending /\
  queries_of (trace (run (Worker.processJob job_ch1) outage_at_finalize).2)
    = [insert_of (j_data job_ch1) pending;
       finalize_of (j_data job_ch1);
       insert_of (j_data job_ch1) failed] /\
  (let s0 := Queue.enqueue job_ch1 (EventLoop.boot outage_at_finalize) in
   let s4 := EventLoop.resume 0 (EventLoop.resume 0 (EventLoop.resume 0
               (EventLoop.resume 0 (Worker.tick s0)))) in
   rejections s4 = [constraint_violation] /\
   inflight s4 = [] /\
   c_status <$> table (world s4) !! "ch_1" = Some pending).
Proof. vm_compute. done. Qed.

(** ** Merchant scoping of the statements *)

(** Walks a program of the sources through all its continuations. *)
Ltac walk :=
  repeat first
    [ progress simpl
    | apply sends_ret | apply sends_throw
    | apply sends_timeout
    | apply sends_query; [first [done | by left | by right] | intros [?|[|? ?]]]
    | match goal with |- context [if ?b then _ else _] => destruct b end ].

(** The single-charge routes of the facade name the merchant in every
    statement. *)
Lemma facade_scoped id m body :
  sends_only (fun q => scoped_by_merchant q = true) (Charges.retrieve id m) /\
  sends_only (fun q => scoped_by_merchant q = true) (Charges.update_metadata id m body) /\
  sends_only (fun q => scoped_by_merchant q = true) (Charges.capture id m).
Proof.
  unfold Charges.retrieve, Charges.update_metadata, Charges.validateMetadata,
    Charges.capture.
  repeat split; walk.
Qed.

(** The finalize statement of the worker is keyed by the charge id
    alone: its WHERE clause does not name the merchant. *)
Remark finalize_keyed_by_id :
  queries_of (trace (run (Worker.processJob job_ch1) world0).2)
    = [InsertCharge "ch_1" "m_1" (Some 500) (Some "usd"%string) pending None;
       UpdateStatusById succeeded "ch_1"] /\
  scoped_by_merchant (UpdateStatusById succeeded "ch_1") = false.
Proof. vm_compute. done. Qed.

Lemma owned_spec t id m r :
  owned t id m = Some r <-> t !! id = Some r /\ c_merchant_id r = m.
Proof.
  unfold owned. destruct (t !! id) as [r0|]; [|by split; [|intros []]].
  destruct (String.eqb (c_merchant_id r0) m) eqn:E.
  - apply String.eqb_eq in E. split; [by intros [= <-]|by intros [[= <-] _]].
  - split; [done|]. intros [[= <-] Hm]. rewrite Hm, String.eqb_refl in E. done.
Qed.

(** A select changes nothing and hands back the owned row, if any. *)
Lemma perform_select q id m w :
  q = SelectCharge id m \/ q = SelectStatus id m ->
  exists r w',
    perform_query q w = (r, w') /\
    table w' = table w /\
    faults w' = tail (faults w) /\
    (forall rows, r = inr rows ->
       rows = match owned (table w) id m with Some r => [r] | None => [] end) /\
    (match faults w with true :: _ => False | _ => True end ->
     r = inr (match owned (table w) id m with Some r => [r] | None => [] end)).
Proof.
  intros [-> | ->]; unfold perform_query.
  all: destruct (faults w) as [|[] fs]; simpl.
  all: destruct (owned (table w) id m); do 2 eexists.
  all: repeat split; try done; by intros rows [= <-].
Qed.

(** A relation on tables that every accepted statement of a program
    respects holds between the tables before and after its run. *)
Lemma run_sends_only {A} (P : query -> Prop) (R : Table -> Table -> Prop)
    (p : Prog A) :
  (forall t, R t t) ->
  (forall a b c, R a b -> R b c -> R a c) ->
  (forall q ms now t t' rows,
     P q -> exec_query ms now q t = Some (t', rows) -> R t t') ->
  sends_only P p ->
  forall w, R (table w) (table (run p w).2).
Proof.
  intros Hrefl Htrans Hexec Hp.
  induction Hp as [a|e|q k Hq Hk IH|ms k Hk IH]; intros w; simpl; try apply Hrefl.
  - destruct (perform_query_cases q w) as (r & ok & w' & Hpq & _ & _ & Hko & Hok).
    rewrite Hpq. apply (Htrans _ (table w')); [|apply IH].
    destruct ok.
    + destruct (Hok eq_refl) as (rows & He & _). by eapply Hexec.
    + destruct (Hko eq_refl) as [-> _]. apply Hrefl.
  - apply (IH (perform_timeout ms w)).
Qed.

Lemma others_untouched_refl m t : others_untouched m t t.
Proof. intros id. by destruct (t !! id). Qed.

Lemma others_untouched_trans m a b c :
  others_untouched m a b -> others_untouched m b c -> others_untouched m a c.
Proof.
  intros Hab Hbc id. specialize (Hab id). specialize (Hbc id).
  destruct (a !! id) as [r|].
  - intros Hm. rewrite (Hab Hm) in Hbc. by apply Hbc.
  - by rewrite Hab in Hbc.
Qed.

Lemma exec_of_merchant m q ms now t t' rows :
  of_merchant m q -> exec_query ms now q t = Some (t', rows) ->
  others_untouched m t t'.
Proof.
  destruct q as [i m' a c st ds|st i|st i m'|md i m'|i m'|i m']; simpl; try done.
  all: intros ->.
  all: destruct (owned t i m) as [r|] eqn:Ho; intros [= <- _];
    try apply others_untouched_refl.
  all: apply owned_spec in Ho as [Hi Hm]; intros id.
  all: destruct (decide (i = id)) as [<-|Hne];
    [rewrite Hi; by intros ?|rewrite lookup_insert_ne by done; by destruct (t !! id)].
Qed.

Lemma facade_of_merchant id m body :
  sends_only (of_merchant m) (Charges.retrieve id m) /\
  sends_only (of_merchant m) (Charges.update_metadata id m body) /\
  sends_only (of_merchant m) (Charges.capture id m).
Proof.
  unfold Charges.retrieve, Charges.update_metadata, Charges.validateMetadata,
    Charges.capture.
  repeat split; walk.
Qed.

Lemma only_own_row_refl d t : only_own_row d t t.
Proof. intros i. by destruct (t !! i). Qed.

(** An accepted insert of the job's row, after statements that kept to
    the job's row, keeps to it. *)
Lemma only_own_row_insert d st ms now t0 t1 t2 rows :
  only_own_row d t0 t1 ->
  exec_query ms now (insert_of d st) t1 = Some (t2, rows) ->
  only_own_row d t0 t2.
Proof.
  intros H01 He i. specialize (H01 i).
  apply exec_insert_inv in He
    as (_ & _ & id' & m' & a' & c' & Hid & Hm & _ & _ & Hnew & _ & _ & ->).
  destruct (decide (id' = i)) as [->|Hne].
  - rewrite lookup_insert_eq. destruct (t0 !! i) as [r|]; [congruence|].
    by intros r [= <-].
  - by rewrite lookup_insert_ne.
Qed.

(** The update by id that follows the accepted insert of the job's row
    lands on that row or on none. *)
Lemma only_own_row_update d st st' ms now t0 t1 rows :
  exec_query ms now (insert_of d st) t0 = Some (t1, rows) ->
  only_own_row d t0 (alter (set_status st') (d_id d) t1).
Proof.
  intros He i.
  apply exec_insert_inv in He
    as (_ & Hd & id' & m' & a' & c' & Hid & Hm & _ & _ & Hnew & _ & _ & ->).
  destruct (t0 !! i) as [r|] eqn:Hi.
  - rewrite lookup_alter_ne by congruence.
    rewrite lookup_insert_ne by congruence. done.
  - intros r. destruct (decide (d_id d = i)) as [<-|Hne].
    + rewrite lookup_alter_eq. destruct (decide (id' = d_id d)) as [->|Hne'].
      * rewrite lookup_insert_eq. simpl. by intros [= <-].
      * rewrite lookup_insert_ne, Hd by done. done.
    + rewrite lookup_alter_ne by done. destruct (decide (id' = i)) as [->|Hne'].
      * rewrite lookup_insert_eq. by intros [= <-].
      * rewrite lookup_insert_ne, Hi by done. done.
Qed.

(** The settlement of a job, whatever the job, the table and the health
    of the store: every table seen on the way, and the last one, differs
    from the first by the row of the job at most. *)
Lemma processJob_only_own_row job w :
  exists evs,
    trace (run (Worker.processJob job) w).2 = trace w ++ evs /\
    tables_of_trace (only_own_row (j_data job) (table w)) evs /\
    only_own_row (j_data job) (table w) (table (run (Worker.processJob job) w).2).
Proof.
  set (d := j_data job).
  assert (Hfail : forall w1 pre,
    trace w1 = trace w ++ pre ->
    tables_of_trace (only_own_row d (table w)) pre ->
    only_own_row d (table w) (table w1) ->
    (forall ms now t2 rows,
       exec_query ms now (insert_of d failed) (table w1) = Some (t2, rows) ->
       only_own_row d (table w) t2) ->
    exists evs,
      trace (run (_ ← Async.db_query (insert_of d failed); Ret tt) w1).2
        = trace w ++ evs /\
      tables_of_trace (only_own_row d (table w)) evs /\
      only_own_row d (table w)
        (table (run (_ ← Async.db_query (insert_of d failed); Ret tt) w1).2)).
  { intros w1 pre Htr Hpre H1 Hins. simpl.
    destruct (perform_query_cases (insert_of d failed) w1)
      as (r & ok & w2 & Hpq & Htr2 & _ & Hko & Hok).
    rewrite Hpq.
    assert (H2 : only_own_row d (table w) (table w2)).
    { destruct ok.
      - destruct (Hok eq_refl) as (rows & He & _). by eapply Hins.
      - destruct (Hko eq_refl) as [-> _]. done. }
    exists (pre ++ [EvQuery (insert_of d failed) ok (table w2)]).
    assert (Hrun : forall x, trace x = trace w2 -> table x = table w2 ->
      trace x = trace w ++ pre ++ [EvQuery (insert_of d failed) ok (table w2)] /\
      tables_of_trace (only_own_row d (table w))
        (pre ++ [EvQuery (insert_of d failed) ok (table w2)]) /\
      only_own_row d (table w) (table x)).
    { intros x -> ->. rewrite Htr2, Htr, <- app_assoc. split; [done|]. split; [|done].
      apply Forall_app. split; [done|]. by repeat constructor. }
    destruct r; simpl; by apply Hrun. }
  unfold Worker.processJob. fold d.
  destruct (String.eqb (j_type job) "process_charge").
  2:{ exists []. simpl. rewrite app_nil_r. split; [done|]. split; [by constructor|].
      apply only_own_row_refl. }
  destruct (negb (truthy (d_source d)) || negb (strict_eq_str (d_source d) "valid_token")).
  { apply (Hfail w []); [by rewrite app_nil_r|by constructor|apply only_own_row_refl|].
    intros ms now t2 rows. apply only_own_row_insert, only_own_row_refl. }
  fold (insert_of d pending). fold (insert_of d failed).
  simpl.
  destruct (perform_query_cases (insert_of d pending) w)
    as (r1 & ok1 & w1 & Hpq1 & Htr1 & _ & Hko1 & Hok1).
  rewrite Hpq1. destruct ok1.
  - destruct (Hok1 eq_refl) as (rows1 & He1 & -> & _). simpl.
    assert (H1 : only_own_row d (table w) (table w1))
      by (eapply only_own_row_insert; [apply only_own_row_refl|exact He1]).
    destruct (perform_query_cases (UpdateStatusById succeeded (d_id d))
                (perform_timeout 2000 w1))
      as (r2 & ok2 & w2 & Hpq2 & Htr2 & _ & Hko2 & Hok2).
    rewrite Hpq2. simpl in Htr2.
    assert (Htr : trace w2 = trace w ++
              [EvQuery (insert_of d pending) true (table w1); EvTimeout 2000;
               EvQuery (UpdateStatusById succeeded (d_id d)) ok2 (table w2)])
      by (by rewrite Htr2, Htr1, <- !app_assoc).
    destruct ok2.
    + destruct (Hok2 eq_refl) as (rows2 & He2 & -> & _). simpl in He2 |- *.
      injection He2 as He2 _.
      assert (H2 : only_own_row d (table w) (table w2))
        by (rewrite <- He2; eapply only_own_row_update; exact He1).
      eexists. split; [exact Htr|]. split; [|done]. by repeat constructor.
    + destruct (Hko2 eq_refl) as [Ht2 [e ->]]. simpl in Ht2 |- *.
      assert (H2 : only_own_row d (table w) (table w2)) by (by rewrite Ht2).
      apply (Hfail w2 _ Htr); [by repeat constructor|done|].
      intros ms now t2 rows. by apply only_own_row_insert.
  - destruct (Hko1 eq_refl) as [Ht1 [e ->]]. simpl.
    assert (H1 : only_own_row d (table w) (table w1))
      by (rewrite Ht1; apply only_own_row_refl).
    apply (Hfail w1 _ Htr1); [by repeat constructor|done|].
    intros ms now t2 rows. by apply only_own_row_insert.
Qed.

(** The rows a scoped select answers with are rows of the merchant,
    stored under the id asked for. *)
Lemma select_rows_owned q id m ms now t t' rows :
  q = SelectCharge id m \/ q = SelectStatus id m ->
  exec_query ms now q t = Some (t', rows) ->
  t' = t /\ Forall (fun r => t !! id = Some r /\ c_merchant_id r = m) rows.
Proof.
  intros [-> | ->]; simpl.
  all: destruct (owned t id m) as [r|] eqn:Ho; intros [= <- <-]; split; try done.
  all: try (by constructor).
  all: apply owned_spec in Ho; constructor; [done|constructor].
Qed.

(** C4. Reads and writes of a charge row are scoped by the owning
    merchant.  The single-charge routes of the facade, called for
    merchant [m], name [m] next to the charge id in every statement they
    send; what their selects answer are rows of [m] stored under that
    id; and whatever the request and the health of the store they leave
    the rows of every other merchant as they were.  The settlement
    procedure, for every job, table and health of the store, writes to
    one row at most: every table seen during its run, the one after the
    status update to [succeeded] included, holds the rows it started
    with unchanged, and the only row that can have appeared is stored
    under the job's charge id with the job's merchant id.  The update
    names the id alone, and reaches that row only, because the insert
    before it has just created the row under the primary key. *)
Theorem charge_access_scoped (job : Job) (id m : string) (body : Body) (w : World) :
  (sends_only (of_merchant m) (Charges.retrieve id m) /\
   sends_only (of_merchant m) (Charges.update_metadata id m body) /\
   sends_only (of_merchant m) (Charges.capture id m)) /\
  (forall q rows t',
     q = SelectCharge id m \/ q = SelectStatus id m ->
     exec_query (merchants w) (clock w) q (table w) = Some (t', rows) ->
     t' = table w /\
     Forall (fun r => table w !! id = Some r /\ c_merchant_id r = m) rows) /\
  (others_untouched m (table w) (table (run (Charges.retrieve id m) w).2) /\
   others_untouched m (table w) (table (run (Charges.update_metadata id m body) w).2) /\
   others_untouched m (table w) (table (run (Charges.capture id m) w).2)) /\
  (exists evs,
     trace (run (Worker.processJob job) w).2 = trace w ++ evs /\
     tables_of_trace (only_own_row (j_data job) (table w)) evs /\
     only_own_row (j_data job) (table w) (table (run (Worker.processJob job) w).2)).
Proof.
  pose proof (facade_of_merchant id m body) as (H1 & H2 & H3).
  split; [done|]. split.
  { intros q rows t' Hq He. by eapply select_rows_owned. }
  split; [|apply processJob_only_own_row].
  repeat split.
  all: eapply (run_sends_only (of_merchant m) (others_untouched m));
    eauto using others_untouched_refl, others_untouched_trans, exec_of_merchant.
Qed.

(** ** How rows come to be *)

Lemma processJob_born job : sends_only born_ok (Worker.processJob job).
Proof. unfold Worker.processJob. walk. Qed.

Lemma retrieve_born id m : sends_only born_ok (Charges.retrieve id m).
Proof. unfold Charges.retrieve. walk. Qed.

Lemma update_metadata_born id m body :
  sends_only born_ok (Charges.update_metadata id m body).
Proof. unfold Charges.update_metadata, Charges.validateMetadata. walk. Qed.

Lemma capture_born id m : sends_only born_ok (Charges.capture id m).
Proof. unfold Charges.capture. walk. Qed.

Lemma advance_sends {A} P (p : Prog A) w :
  sends_only P p -> sends_only P (advance p w).1.
Proof.
  intros H. destruct H as [a|e|q k Hq Hk|ms k Hk]; simpl; try by constructor.
  - destruct (perform_query q w) as [r w']. apply Hk.
  - done.
Qed.

(** What the next await of a program can do to an id the table does not
    hold: leave it absent, or create it [pending] or [failed]. *)
Lemma advance_born {A} (p : Prog A) w id r :
  sends_only born_ok p ->
  table w !! id = None ->
  table (advance p w).2 !! id = Some r ->
  c_status r = pending \/ c_status r = failed.
Proof.
  intros H Hnone. destruct H as [a|e|q k Hq Hk|ms k Hk]; simpl; try congruence.
  destruct (perform_query_cases q w) as (res & ok & w' & Hpq & _ & _ & Hko & Hok).
  rewrite Hpq. simpl. destruct ok.
  - destruct (Hok eq_refl) as (rows & He & _). revert He.
    destruct q as [i m a c st ds|st i|st i m|md i m|i m|i m];
      [intros He|simpl..].
    + apply exec_insert_inv in He
        as (_ & _ & i' & m' & a' & c' & _ & _ & _ & _ & _ & _ & _ & ->).
      simpl in Hq. destruct (decide (i' = id)) as [->|Hne].
      * rewrite lookup_insert_eq. by intros [= <-].
      * rewrite lookup_insert_ne by done. congruence.
    + intros [= <- _]. destruct (decide (i = id)) as [->|Hne].
      * by rewrite lookup_alter_eq, Hnone.
      * rewrite lookup_alter_ne by done. congruence.
    + destruct (owned (table w) i m) as [r0|] eqn:Ho; intros [= <- _]; [|congruence].
      apply owned_Some in Ho. destruct (decide (i = id)) as [->|Hne]; [congruence|].
      rewrite lookup_insert_ne by done. congruence.
    + destruct (owned (table w) i m) as [r0|] eqn:Ho; intros [= <- _]; [|congruence].
      apply owned_Some in Ho. destruct (decide (i = id)) as [->|Hne]; [congruence|].
      rewrite lookup_insert_ne by done. congruence.
    + destruct (owned (table w) i m); intros [= <- _]; congruence.
    + destruct (owned (table w) i m); intros [= <- _]; congruence.
  - destruct (Hko eq_refl) as [-> _]. congruence.
Qed.

Lemma park_sends P t s :
  task_sends_only P t ->
  Forall (task_sends_only P) (inflight s) ->
  Forall (task_sends_only P) (inflight (park t s)).
Proof.
  intros Ht Hs. destruct t as [[]|[]]; simpl; try done.
  all: apply Forall_app; split; [done|by constructor].
Qed.

(** The functions under way in a process keep to the statements of the
    sources, whatever happens next; and a charge never enters the store
    otherwise than [pending] or [failed]: no step takes it from absent
    to [succeeded]. *)
Lemma step_born s s' :
  EventLoop.step s s' ->
  Forall (task_sends_only born_ok) (inflight s) ->
  Forall (task_sends_only born_ok) (inflight s') /\
  forall id r,
    table (world s) !! id = None ->
    table (world s') !! id = Some r ->
    c_status r = pending \/ c_status r = failed.
Proof.
  intros [s0 _|s0 i _|s0 uuid m body|s0 id0 m|s0 id0 m body|s0 id0 m] Hall.
  - split; [|rewrite world_tick; congruence].
    unfold Worker.tick, Queue.dequeue. destruct (queue s0) as [|job rest]; [done|].
    apply park_sends; [apply processJob_born|done].
  - unfold EventLoop.resume.
    destruct (inflight s0 !! i) as [t|] eqn:Hi; [|split; [done|congruence]].
    assert (Ht : task_sends_only born_ok t) by (by eapply Forall_lookup_1).
    assert (Hdel : Forall (task_sends_only born_ok) (delete i (inflight s0)))
      by (by apply Forall_delete).
    destruct t as [p|p]; simpl in Ht.
    + pose proof (advance_sends born_ok p (world s0) Ht) as Hp.
      pose proof (advance_born p (world s0)) as Hb.
      destruct (advance p (world s0)) as [p' w']. simpl in Hp, Hb. split.
      * by apply park_sends.
      * intros id r Hn Hs. rewrite world_park in Hs. by eapply Hb.
    + pose proof (advance_sends born_ok p (world s0) Ht) as Hp.
      pose proof (advance_born p (world s0)) as Hb.
      destruct (advance p (world s0)) as [p' w']. simpl in Hp, Hb. split.
      * by apply park_sends.
      * intros id r Hn Hs. rewrite world_park in Hs. by eapply Hb.
  - split; [|rewrite world_create; congruence].
    unfold Charges.create, Charges.validateCharge. by destruct (_ || _).
  - split; [|rewrite world_park; congruence].
    apply park_sends; [apply retrieve_born|done].
  - split; [|rewrite world_park; congruence].
    apply park_sends; [apply update_metadata_born|done].
  - split; [|rewrite world_park; congruence].
    apply park_sends; [apply capture_born|done].
Qed.

(** From the boot of the process on, in every interleaving: the step
    that brings a charge into the store brings it [pending] or [failed]. *)
Lemma never_new_to_succeeded w s s' id r :
  EventLoop.steps (EventLoop.boot w) s ->
  EventLoop.step s s' ->
  table (world s) !! id = None ->
  table (world s') !! id = Some r ->
  c_status r = pending \/ c_status r = failed.
Proof.
  intros Hsteps Hstep.
  assert (Hall : Forall (task_sends_only born_ok) (inflight s)).
  { clear Hstep. revert s Hsteps.
    apply (rtc_ind_r (fun s => Forall (task_sends_only born_ok) (inflight s))).
    - by constructor.
    - intros s1 s2 _ H12 IH. by apply (step_born s1 s2 H12). }
  by apply (step_born s s' Hstep Hall).
Qed.

(** ** The theorems at the scenarios of the specification *)



Lemma queue_fifo_witness :
  let ops := [Enq job_ch1; Enq job_ch2; Deq; Deq] in
  (play ops process0).1 !! 0%nat = Some job_ch1 /\
  (play ops process0).1 !! 1%nat = Some job_ch2.
Proof.
  apply (queue_fifo process0 [Enq job_ch1; Enq job_ch2; Deq; Deq]);
    [reflexivity|lia|reflexivity|reflexivity|simpl; lia].
Defined.


Lemma persisted_charge_immutable_witness :
  let s' := EventLoop.resume 0 (EventLoop.resume 0
              (park (Request (Charges.capture "ch_7" "m_1")) process_authorized)) in
  (c_status <$> table (world s') !! "ch_7"%string) = Some captured /\
  exists r',
    table (world s') !! "ch_7"%string = Some r' /\
    c_id r' = "ch_7"%string /\
    c_merchant_id r' = "m_1"%string /\
    c_amount r' = 500 /\
    c_currency r' = "usd"%string /\
    c_description r' = None /\
    c_created_at r' = 0.
Proof.
  split; [reflexivity|].
  apply (persisted_charge_immutable process_authorized _ "ch_7"
           (mkRow "ch_7" "m_1" 500 "usd" authorized None None 0));
    [|reflexivity].
  eapply rtc_l;
    [apply (EventLoop.step_capture process_authorized "ch_7" "m_1"); reflexivity|].
  eapply rtc_l; [apply (EventLoop.step_resume _ 0); eexists; reflexivity|].
  eapply rtc_l; [apply (EventLoop.step_resume _ 0); eexists; reflexivity|].
  apply rtc_refl.
Defined.

Lemma tick_on_empty_queue_witness :
  Queue.dequeue process0 = (None, process0) /\
  queue (Queue.dequeue process0).2 = [] /\
  Worker.tick process0 = process0 /\
  (intervals process0 <> [] ->
   EventLoop.step (Worker.tick process0) (Worker.tick (Worker.tick process0))) /\
  (forall job, queue (Worker.tick (Queue.enqueue job (Worker.tick process0))) = []).
Proof.
  apply (tick_on_empty_queue process0); reflexivity.
Defined.

Lemma tick_dispatches_one_witness :
  let s := Queue.enqueue job_ch2 (Queue.enqueue job_ch1 process0) in
  inflight (Worker.tick s) = [Settlement (Worker.processJob job_ch1)] /\
  queue (Worker.tick s) = [job_ch2] /\
  EventLoop.step (Worker.tick s) (Worker.tick (Worker.tick s)) /\
  inflight (Worker.tick (Worker.tick s))
    = [Settlement (Worker.processJob job_ch1); Settlement (Worker.processJob job_ch2)].
Proof.
  intros s.
  destruct (tick_dispatches_one s) as (Hq & _ & _ & _ & _ & _ & Hfl & Hnext).
  destruct (tick_dispatches_one (Worker.tick s)) as (_ & _ & _ & _ & _ & _ & Hfl2 & _).
  split; [exact (Hfl job_ch1 eq_refl eq_refl)|].
  split; [exact Hq|].
  split; [apply Hnext; discriminate|].
  rewrite (Hfl2 job_ch2 eq_refl eq_refl).
  by rewrite (Hfl job_ch1 eq_refl eq_refl).
Defined.

Lemma other_job_discarded_witness :
  let s := Queue.enqueue job_other process0 in
  Worker.processJob job_other = Ret tt /\
  run (Worker.processJob job_other) world0 = (inr tt, world0) /\
  Queue.dequeue s = (Some job_other, set_queue [] s) /\
  Worker.tick s = set_queue [] s /\
  world (Worker.tick s) = world s /\
  rejections (Worker.tick s) = rejections s /\
  inflight (Worker.tick s) = inflight s.
Proof.
  apply (other_job_discarded job_other [] (Queue.enqueue job_other process0) world0);
    [discriminate|reflexivity].
Defined.

(** * Further properties of the sources *)

(** ** queue.js and the loop of worker.js *)

Lemma play_enqueues js : forall s ops,
  play (map Enq js ++ ops) s
  = play ops (foldl (fun s job => Queue.enqueue job s) s js).
Proof. induction js as [|job js IH]; intros s ops; simpl; [done|apply IH]. Qed.

Lemma queue_enqueues js : forall s,
  queue (foldl (fun s job => Queue.enqueue job s) s js) = queue s ++ js.
Proof.
  induction js as [|job js IH]; intros s; simpl; [by rewrite app_nil_r|].
  by rewrite IH, enqueue_queue, <- app_assoc.
Qed.

Lemma play_dequeues n : forall s,
  (play (replicate n Deq) s).1 = take n (queue s) /\
  queue (play (replicate n Deq) s).2 = drop n (queue s).
Proof.
  induction n as [|n IH]; intros s; simpl; [done|].
  destruct (queue s) as [|job rest] eqn:Hq.
  - rewrite (dequeue_nil s Hq). destruct (IH s) as [H1 H2].
    destruct (play (replicate n Deq) s) as [out s']. simpl in *.
    rewrite Hq in H1, H2. by rewrite take_nil in H1; rewrite drop_nil in H2.
  - rewrite (dequeue_cons job rest s Hq). destruct (IH (set_queue rest s)) as [H1 H2].
    destruct (play (replicate n Deq) (set_queue rest s)) as [out s']. simpl in *.
    by rewrite H1.
Qed.

(** X1. Draining: after any jobs have been enqueued on an empty queue, as
    many calls of [dequeue] give back exactly those jobs in the order of
    their enqueue; further calls give nothing and the queue is left
    empty. *)
Theorem queue_drain (s : Process) (js : list Job) (k : nat) :
  queue s = [] ->
  (play (map Enq js ++ replicate (length js + k) Deq) s).1 = js /\
  queue (play (map Enq js ++ replicate (length js + k) Deq) s).2 = [].
Proof.
  intros Hq. rewrite play_enqueues.
  destruct (play_dequeues (length js + k)
              (foldl (fun s job => Queue.enqueue job s) s js)) as [H1 H2].
  rewrite H1, H2, queue_enqueues, Hq. simpl. split.
  - apply take_ge. lia.
  - apply drop_ge. lia.
Qed.

Lemma finished_processJob job :
  finished (Worker.processJob job) = negb (is_process_charge job).
Proof.
  unfold is_process_charge.
  destruct (String.eqb (j_type job) "process_charge") eqn:E.
  - apply String.eqb_eq in E. by rewrite (processJob_suspends job E).
  - rewrite processJob_other; [done|]. intros H. by rewrite H in E.
Qed.

(** The shape of one tick on a non-empty queue. *)
Lemma tick_head job rest s :
  queue s = job :: rest ->
  queue (Worker.tick s) = rest /\
  inflight (Worker.tick s)
    = inflight s ++ (if is_process_charge job
                     then [Settlement (Worker.processJob job)] else []) /\
  world (Worker.tick s) = world s /\
  rejections (Worker.tick s) = rejections s /\
  responses (Worker.tick s) = responses s.
Proof.
  intros Hq. rewrite (tick_cons job rest s Hq).
  pose proof (finished_processJob job) as Hf.
  destruct (is_process_charge job) eqn:E; simpl in Hf.
  - by destruct (Worker.processJob job).
  - unfold is_process_charge in E. rewrite processJob_other.
    + simpl. by rewrite app_nil_r.
    + intros H. by rewrite H in E.
Qed.

(** X2. As many ticks as there are jobs at the head of the queue take
    exactly those jobs off it and start their settlements in queue order,
    all of them under way together; jobs of another type are dropped on
    the way.  No statement has run and no promise has been rejected when
    the last of these ticks returns. *)
Theorem ticks_dispatch_in_order (js rest : list Job) (s : Process) :
  queue s = js ++ rest ->
  let s' := Nat.iter (length js) Worker.tick s in
  queue s' = rest /\
  inflight s' = inflight s ++
    map (fun job => Settlement (Worker.processJob job))
        (List.filter is_process_charge js) /\
  world s' = world s /\
  rejections s' = rejections s.
Proof.
  revert s. induction js as [|job js IH]; intros s Hq; simpl.
  - by rewrite app_nil_r.
  - rewrite <- Nat.iter_succ, Nat.iter_succ_r.
    destruct (tick_head job (js ++ rest) s Hq) as (Hq1 & Hf1 & Hw1 & Hr1 & _).
    destruct (IH (Worker.tick s) Hq1) as (Hq2 & Hf2 & Hw2 & Hr2).
    rewrite Hq2, Hf2, Hw2, Hr2, Hf1, Hw1, Hr1. repeat split; try done.
    rewrite <- app_assoc. f_equal. by destruct (is_process_charge job).
Qed.

(** ** The settlement procedure at its edges *)

(** An insert for an id the table holds is refused, healthy store or
    not, and changes nothing. *)
Lemma insert_existing_refused id m a c st ds w r0 :
  table w !! id = Some r0 ->
  exists e w',
    perform_query (InsertCharge id m a c st ds) w = (inl e, w') /\
    table w' = table w /\
    clock w' = clock w /\
    queries_of (trace w') = queries_of (trace w) ++ [InsertCharge id m a c st ds].
Proof.
  intros Hid.
  destruct (perform_query_cases (InsertCharge id m a c st ds) w)
    as (r & ok & w' & Hq & Htr & Hck & Hko & Hok).
  destruct ok.
  - destruct (Hok eq_refl) as (rows & He & _). simpl in He. by rewrite Hid in He.
  - destruct (Hko eq_refl) as [Ht [e ->]]. exists e, w'.
    by rewrite Htr, queries_of_query.
Qed.

(** X3. A [process_charge] job whose charge id is already in the store
    (a job enqueued twice, a colliding id): whatever its source and
    whatever the health of the store, every insert the procedure sends is
    refused, the procedure ends with an exception and the table is left
    exactly as it was: the stored charge is not overwritten. *)
Theorem duplicate_id_refused (job : Job) (w : World) (r0 : Row) :
  j_type job = "process_charge"%string ->
  table w !! d_id (j_data job) = Some r0 ->
  exists e w',
    run (Worker.processJob job) w = (inl e, w') /\
    table w' = table w.
Proof.
  intros Htype Hid. unfold Worker.processJob. rewrite Htype. simpl.
  destruct (negb (truthy _) || negb (strict_eq_str _ _)); simpl.
  - destruct (insert_existing_refused (d_id (j_data job)) (d_merchant_id (j_data job))
                (d_amount (j_data job)) (d_currency (j_data job)) failed
                (d_description (j_data job)) w r0 Hid) as (e & w' & Hq & Ht & _).
    rewrite Hq. simpl. by exists e, w'.
  - destruct (insert_existing_refused (d_id (j_data job)) (d_merchant_id (j_data job))
                (d_amount (j_data job)) (d_currency (j_data job)) pending
                (d_description (j_data job)) w r0 Hid) as (e1 & w1 & Hq1 & Ht1 & _).
    rewrite Hq1. simpl. rewrite <- Ht1 in Hid.
    destruct (insert_existing_refused (d_id (j_data job)) (d_merchant_id (j_data job))
                (d_amount (j_data job)) (d_currency (j_data job)) failed
                (d_description (j_data job)) w1 r0 Hid) as (e & w' & Hq & Ht & _).
    rewrite Hq. simpl. exists e, w'. split; [done|congruence].
Qed.





(** ** The routes of charges.js *)

(** X6. [GET /:id] never lets an exception out and never changes the
    table; it answers 200, 404 or 500, and a 200 carries the row stored
    under that id, which belongs to the caller's merchant. *)
Theorem retrieve_answers (id m : string) (w : World) :
  exists res w',
    run (Charges.retrieve id m) w = (inr res, w') /\
    table w' = table w /\
    (res_status res = 200 \/ res_status res = 404 \/ res_status res = 500) /\
    (res_status res = 200 ->
     exists r, res_body res = RowBody (Some r) /\
               table w !! id = Some r /\ c_merchant_id r = m).
Proof.
  unfold Charges.retrieve. simpl.
  destruct (perform_select (SelectCharge id m) id m w (or_introl eq_refl))
    as (r & w' & Hq & Ht & _ & Hrows & _).
  rewrite Hq. destruct r as [e|rows]; simpl.
  - do 2 eexists. repeat split; [done|by right; right|done].
  - specialize (Hrows rows eq_refl).
    destruct (owned (table w) id m) as [r|] eqn:Ho; subst rows; simpl.
    + apply owned_spec in Ho as [Hid Hm].
      do 2 eexists. repeat split; [done|by left|]. intros _. by exists r.
    + do 2 eexists. repeat split; [done|by right; left|done].
Qed.

(** X7. Reads are scoped: a charge that belongs to another merchant is
    answered exactly like a charge that does not exist, with the 404 of
    the route. *)
Theorem retrieve_foreign_is_absent (id m : string) (w : World) (r : Row) :
  store_up w = true ->
  table w !! id = Some r ->
  c_merchant_id r <> m ->
  (run (Charges.retrieve id m) w).1 =
    inr (mkRes 404 (ErrorBody "Charge not found or is still being processed.")) /\
  (run (Charges.retrieve id m) w).1 =
    (run (Charges.retrieve id m)
         (mkWorld (delete id (table w)) (clock w) (faults w) (trace w)
                  (merchants w))).1.
Proof.
  intros Hup Hid Hm.
  assert (Ho : owned (table w) id m = None).
  { destruct (owned (table w) id m) as [r'|] eqn:Ho; [|done].
    apply owned_spec in Ho as [Hid' Hm']. congruence. }
  assert (H404 : (run (Charges.retrieve id m) w).1 =
    inr (mkRes 404 (ErrorBody "Charge not found or is still being processed."))).
  { unfold Charges.retrieve. simpl. rewrite (perform_query_up _ w Hup). simpl.
    by rewrite Ho. }
  split; [done|]. rewrite H404. symmetry.
  apply retrieve_absent; [done|]. simpl. apply lookup_delete_eq.
Qed.

(** X8. Writes are scoped: whatever the request and whatever the state
    and health of the store, the three single-charge routes called for
    merchant [m] leave every row of every other merchant exactly as it
    was, and create no row. *)
Theorem facade_leaves_other_merchants (id m : string) (body : Body) (w : World) :
  others_untouched m (table w) (table (run (Charges.retrieve id m) w).2) /\
  others_untouched m (table w) (table (run (Charges.update_metadata id m body) w).2) /\
  others_untouched m (table w) (table (run (Charges.capture id m) w).2).
Proof.
  destruct (facade_of_merchant id m body) as (H1 & H2 & H3).
  repeat split.
  all: eapply (run_sends_only (of_merchant m) (others_untouched m));
    eauto using others_untouched_refl, others_untouched_trans, exec_of_merchant.
Qed.

Lemma owned_insert t id m r' :
  c_merchant_id r' = m -> owned (<[id := r']> t) id m = Some r'.
Proof. intros Hm. apply owned_spec. by rewrite lookup_insert_eq. Qed.


(** X10. Metadata that is not an object (missing, [null], a boolean, a
    number, a string) is refused with 400 before any statement is sent:
    the world is exactly as it was. *)
Theorem metadata_must_be_object (id m : string) (body : Body) (w : World) :
  (forall fields, b_metadata body <> JObject fields) ->
  run (Charges.update_metadata id m body) w
  = (inr (mkRes 400 (ErrorBody "Metadata must be an object.")), w).
Proof.
  intros Hno. unfold Charges.update_metadata, Charges.validateMetadata.
  destruct (b_metadata body) as [| |b|n|str|fs]; simpl; try done.
  - by destruct b.
  - by destruct (negb (n =? 0)).
  - by destruct (negb (String.eqb str "")).
  - by destruct (Hno fs).
Qed.

Lemma capture_other_status id m w r :
  store_up w = true ->
  owned (table w) id m = Some r ->
  c_status r <> authorized ->
  run (Charges.capture id m) w
  = (inr (mkRes 400 (ErrorBody "Charge cannot be captured: Status is not authorized.")),
     mkWorld (table w) (clock w) (tail (faults w))
             (trace w ++ [EvQuery (SelectStatus id m) true (table w)])
             (merchants w)).
Proof.
  intros Hup Ho Hst. unfold Charges.capture. simpl.
  rewrite (perform_query_up _ w Hup). simpl. rewrite Ho. simpl.
  assert (Status_eqb (c_status r) authorized = false) as ->
    by (by destruct (c_status r)).
  done.
Qed.

(** X11. Capture of an authorized charge of the caller's merchant, on a
    healthy store: the route reads the status, updates it and answers
    200 with the row as [captured], the other columns as they were.  A
    capture is not repeatable: the same request again is answered 400 and
    changes nothing. *)
Theorem capture_authorized (id m : string) (w : World) (r : Row) :
  table w !! id = Some r ->
  c_merchant_id r = m ->
  c_status r = authorized ->
  store_up w = true ->
  let r' := set_status captured r in
  let w' := (run (Charges.capture id m) w).2 in
  (run (Charges.capture id m) w).1 = inr (mkRes 200 (RowBody (Some r'))) /\
  table w' = <[id := r']> (table w) /\
  queries_of (trace w')
    = queries_of (trace w) ++ [SelectStatus id m; UpdateStatus captured id m] /\
  (run (Charges.capture id m) w').1
    = inr (mkRes 400 (ErrorBody "Charge cannot be captured: Status is not authorized.")) /\
  table (run (Charges.capture id m) w').2 = table w'.
Proof.
  intros Hid Hm Hst Hup r' w'.
  assert (Ho : owned (table w) id m = Some r) by (by apply owned_spec).
  remember (mkWorld (<[id := r']> (table w)) (clock w) (tail (tail (faults w)))
             ((trace w ++ [EvQuery (SelectStatus id m) true (table w)])
                ++ [EvQuery (UpdateStatus captured id m) true (<[id := r']> (table w))])
             (merchants w))
    as w1 eqn:Hw1.
  assert (Hrun : run (Charges.capture id m) w = (inr (mkRes 200 (RowBody (Some r'))), w1)).
  { subst w1. unfold Charges.capture. simpl. rewrite (perform_query_up _ w Hup). simpl.
    rewrite Ho. simpl. rewrite Hst. simpl.
    rewrite perform_query_up by (by eapply store_up_tail). simpl. by rewrite Ho. }
  assert (Hup1 : store_up w1 = true).
  { apply (store_up_tail
             (mkWorld (table w) (clock w) (tail (faults w)) [] (merchants w)));
      [|by subst w1]. by apply (store_up_tail w). }
  assert (Ho1 : owned (table w1) id m = Some r')
    by (subst w1; by apply owned_insert).
  subst w'. rewrite Hrun. cbn [fst snd].
  rewrite (capture_other_status id m w1 r' Hup1 Ho1) by done. cbn [fst snd].
  subst w1. simpl. repeat split; try done.
  by rewrite !queries_of_query, <- app_assoc.
Qed.


(** X13. [POST /:id] and [POST /:id/capture] never let an exception out,
    whatever the request, the table and the health of the store: every
    run ends with an answer, 200, 400, 404 or 500. *)
Theorem facade_writes_always_answer (id m : string) (body : Body) (w : World) :
  (exists res w',
     run (Charges.update_metadata id m body) w = (inr res, w') /\
     (res_status res = 200 \/ res_status res = 400 \/
      res_status res = 404 \/ res_status res = 500)) /\
  (exists res w',
     run (Charges.capture id m) w = (inr res, w') /\
     (res_status res = 200 \/ res_status res = 400 \/
      res_status res = 404 \/ res_status res = 500)).
Proof.
  split.
  - unfold Charges.update_metadata, Charges.validateMetadata.
    destruct (negb _ || negb _); simpl; [by eauto 10|].
    destruct (perform_query _ w) as [[e|[|r rows]] w1]; simpl; by eauto 10.
  - unfold Charges.capture. simpl.
    destruct (perform_query _ w) as [[e|[|r rows]] w1]; simpl; try by eauto 10.
    destruct (negb (Status_eqb (c_status r) authorized)); simpl; [by eauto 10|].
    destruct (perform_query _ w1) as [[e|rows'] w2]; simpl; by eauto 10.
Qed.

(** X14. The store rejects the statement it is sent next: each of the
    three routes answers 500 "Internal Server Error" and the table is as
    it was. *)
Theorem store_down_is_500 (id m : string) (body : Body) (w : World) (fs : list bool) :
  faults w = true :: fs ->
  truthy (b_metadata body) = true ->
  typeof_object (b_metadata body) = true ->
  let e500 := mkRes 500 (ErrorBody "Internal Server Error") in
  ((run (Charges.retrieve id m) w).1 = inr e500 /\
   table (run (Charges.retrieve id m) w).2 = table w) /\
  ((run (Charges.update_metadata id m body) w).1 = inr e500 /\
   table (run (Charges.update_metadata id m body) w).2 = table w) /\
  ((run (Charges.capture id m) w).1 = inr e500 /\
   table (run (Charges.capture id m) w).2 = table w).
Proof.
  intros Hf Htr Hty e500.
  unfold Charges.retrieve, Charges.update_metadata, Charges.validateMetadata,
    Charges.capture.
  rewrite Htr, Hty. simpl.
  rewrite !(perform_query_fault _ w fs Hf). done.
Qed.

(** X15. Capture is two statements, not one transaction: when the read
    finds the charge authorized and the store then rejects the update,
    the route answers 500 and the charge stays [authorized]. *)
Theorem capture_update_failure (id m : string) (w : World) (r : Row) (fs : list bool) :
  table w !! id = Some r ->
  c_merchant_id r = m ->
  c_status r = authorized ->
  faults w = false :: true :: fs ->
  (run (Charges.capture id m) w).1
    = inr (mkRes 500 (ErrorBody "Internal Server Error")) /\
  table (run (Charges.capture id m) w).2 = table w /\
  queries_of (trace (run (Charges.capture id m) w).2)
    = queries_of (trace w) ++ [SelectStatus id m; UpdateStatus captured id m].
Proof.
  intros Hid Hm Hst Hf.
  assert (Ho : owned (table w) id m = Some r) by (by apply owned_spec).
  assert (Hsel : perform_query (SelectStatus id m) w =
    (inr [r], mkWorld (table w) (clock w) (true :: fs)
                      (trace w ++ [EvQuery (SelectStatus id m) true (table w)])
                      (merchants w))).
  { unfold perform_query. rewrite Hf. simpl. by rewrite Ho. }
  unfold Charges.capture. simpl. rewrite !Hsel. simpl. rewrite Hst. simpl.
  repeat split; try done.
  by rewrite !queries_of_query, <- app_assoc.
Qed.

(** ** What no interleaving reaches *)

Lemma exec_pipeline ms now q t t' rows :
  pipeline_write q -> pipeline_table t ->
  exec_query ms now q t = Some (t', rows) ->
  pipeline_table t' /\ pipeline_reply (inr rows).
Proof.
  intros Hq Ht.
  assert (Hins : forall i r, pipeline_status (c_status r) = true ->
                 pipeline_table (<[i := r]> t)).
  { intros i r Hr id r0. destruct (decide (i = id)) as [<-|Hne].
    - rewrite lookup_insert_eq. by intros [= <-].
    - rewrite lookup_insert_ne by done. apply Ht. }
  destruct q as [i m a c st ds|st i|st i m|md i m|i m|i m];
    [intros He|simpl in *..].
  - apply exec_insert_inv in He
      as (-> & _ & i' & m' & a' & c' & _ & _ & _ & _ & _ & _ & _ & ->).
    split; [by apply Hins|constructor].
  - intros [= <- <-]. split; [|constructor]. intros id r0.
    destruct (decide (i = id)) as [<-|Hne].
    + rewrite lookup_alter_eq. destruct (t !! i); [|done]. by intros [= <-].
    + rewrite lookup_alter_ne by done. apply Ht.
  - destruct (owned t i m) as [r|] eqn:Ho; intros [= <- <-].
    + split; [by apply Hins|]. by repeat constructor.
    + split; [done|constructor].
  - destruct (owned t i m) as [r|] eqn:Ho; intros [= <- <-].
    + apply owned_Some in Ho. pose proof (Ht i r Ho).
      split; [by apply Hins|]. by repeat constructor.
    + split; [done|constructor].
  - destruct (owned t i m) as [r|] eqn:Ho; intros [= <- <-]; (split; [done|]).
    + apply owned_Some in Ho. pose proof (Ht i r Ho). by repeat constructor.
    + constructor.
  - destruct (owned t i m) as [r|] eqn:Ho; intros [= <- <-]; (split; [done|]).
    + apply owned_Some in Ho. pose proof (Ht i r Ho). by repeat constructor.
    + constructor.
Qed.

Lemma advance_tame {A} (p : Prog A) w :
  tame p -> pipeline_table (table w) ->
  tame (advance p w).1 /\ pipeline_table (table (advance p w).2).
Proof.
  intros Hp Ht. destruct Hp as [a|e|q k Hq Hk|ms k Hk]; simpl; try (split; [by constructor|done]).
  - destruct (perform_query_cases q w) as (r & ok & w' & Hpq & _ & _ & Hko & Hok).
    rewrite Hpq. simpl. destruct ok.
    + destruct (Hok eq_refl) as (rows & He & -> & _).
      destruct (exec_pipeline _ _ _ _ _ _ Hq Ht He) as [Ht' Hr].
      split; [by apply Hk|done].
    + destruct (Hko eq_refl) as [-> [e ->]]. split; [by apply Hk|done].
  - done.
Qed.

(** Walks a program through its continuations, with the replies the
    database can give on a table in the worker's statuses. *)
Ltac walk_tame :=
  repeat first
    [ progress simpl
    | apply tame_ret | apply tame_throw | apply tame_timeout
    | apply tame_query; [done | intros [?|[|? ?]] ?]
    | match goal with |- context [if ?b then _ else _] => destruct b end ].

Lemma processJob_tame job : tame (Worker.processJob job).
Proof. unfold Worker.processJob. walk_tame. Qed.

Lemma retrieve_tame id m : tame (Charges.retrieve id m).
Proof. unfold Charges.retrieve. walk_tame. Qed.

Lemma update_metadata_tame id m body : tame (Charges.update_metadata id m body).
Proof. unfold Charges.update_metadata, Charges.validateMetadata. walk_tame. Qed.

(** The update to [captured] is out of reach of a reply in the worker's
    statuses: the route stops at its status check. *)
Lemma capture_tame id m : tame (Charges.capture id m).
Proof.
  unfold Charges.capture. simpl. apply tame_query; [done|].
  intros [e|[|r rows]] Hr; simpl; try constructor.
  apply Forall_cons in Hr as [Hr _].
  destruct (c_status r); try discriminate Hr; simpl; constructor.
Qed.

Lemma park_tame t s :
  task_tame t -> Forall task_tame (inflight s) ->
  Forall task_tame (inflight (park t s)).
Proof.
  intros Ht Hs. destruct t as [[]|[]]; simpl; try done.
  all: apply Forall_app; split; [done|by constructor].
Qed.

Lemma step_tame s s' :
  EventLoop.step s s' ->
  Forall task_tame (inflight s) /\ pipeline_table (table (world s)) ->
  Forall task_tame (inflight s') /\ pipeline_table (table (world s')).
Proof.
  intros [s0 _|s0 i _|s0 uuid m body|s0 id0 m|s0 id0 m body|s0 id0 m] [Hall Ht].
  - rewrite world_tick. split; [|done].
    unfold Worker.tick, Queue.dequeue. destruct (queue s0) as [|job rest]; [done|].
    apply park_tame; [apply processJob_tame|done].
  - unfold EventLoop.resume.
    destruct (inflight s0 !! i) as [t|] eqn:Hi; [|done].
    assert (Htk : task_tame t) by (by eapply Forall_lookup_1).
    assert (Hdel : Forall task_tame (delete i (inflight s0)))
      by (by apply Forall_delete).
    destruct t as [p|p]; simpl in Htk.
    all: destruct (advance_tame p (world s0) Htk Ht) as [Hp Ht'].
    all: destruct (advance p (world s0)) as [p' w']; simpl in Hp, Ht'.
    all: rewrite world_park; split; [by apply park_tame|done].
  - rewrite world_create. split; [|done].
    unfold Charges.create, Charges.validateCharge. by destruct (_ || _).
  - rewrite world_park. split; [|done]. apply park_tame; [apply retrieve_tame|done].
  - rewrite world_park. split; [|done].
    apply park_tame; [apply update_metadata_tame|done].
  - rewrite world_park. split; [|done]. apply park_tame; [apply capture_tame|done].
Qed.

Lemma steps_tame w s :
  pipeline_table (table w) ->
  EventLoop.steps (EventLoop.boot w) s ->
  Forall task_tame (inflight s) /\ pipeline_table (table (world s)).
Proof.
  intros Ht. revert s.
  apply (rtc_ind_r (fun s =>
           Forall task_tame (inflight s) /\ pipeline_table (table (world s)))).
  - split; [by constructor|done].
  - intros s1 s2 _ H12 IH. by apply (step_tame s1 s2 H12).
Qed.

(** X16. The capture path is out of reach of the pipeline: from the boot
    of the process on a store with no authorized or captured charge, in
    every interleaving of ticks, settlements and requests (captures
    included) and under every behaviour of the store, no charge is ever
    [authorized] or [captured]: every stored charge is [pending],
    [succeeded] or [failed]. *)
Theorem capture_out_of_reach (w : World) (s : Process) (id : string) (r : Row) :
  pipeline_table (table w) ->
  EventLoop.steps (EventLoop.boot w) s ->
  table (world s) !! id = Some r ->
  c_status r = pending \/ c_status r = succeeded \/ c_status r = failed.
Proof.
  intros Ht Hsteps Hid.
  destruct (steps_tame w s Ht Hsteps) as [_ Hp]. specialize (Hp id r Hid).
  destruct (c_status r); try discriminate Hp; auto.
Qed.

Lemma queue_park t s : queue (park t s) = queue s.
Proof. by destruct t as [[]|[]]. Qed.

Lemma queue_resume i s : queue (EventLoop.resume i s) = queue s.
Proof.
  unfold EventLoop.resume. destruct (inflight s !! i) as [[p|p]|]; [| |done].
  all: destruct (advance p (world s)) as [p' w']; by rewrite queue_park.
Qed.

Lemma facade_job_insertable job : facade_job job = true -> insertable job = true.
Proof.
  unfold facade_job, insertable. intros H.
  repeat (apply andb_true_iff in H as [H ?]).
  by destruct (d_amount (j_data job)), (d_currency (j_data job)).
Qed.

Lemma step_facade_jobs s s' :
  EventLoop.step s s' ->
  forallb facade_job (queue s) = true -> forallb facade_job (queue s') = true.
Proof.
  intros [s0 _|s0 i _|s0 uuid m body|s0 id0 m|s0 id0 m body|s0 id0 m] Hq.
  - unfold Worker.tick, Queue.dequeue. destruct (queue s0) as [|job rest] eqn:E.
    + by rewrite E.
    + rewrite queue_park. simpl in *. by apply andb_true_iff in Hq as [_ Hq].
  - by rewrite queue_resume.
  - unfold Charges.create, Charges.validateCharge.
    destruct (truthy_num (b_amount body)) eqn:Ea; [|done].
    destruct (truthy_str (b_currency body)) eqn:Ec; [|done].
    destruct (truthy (b_source body)) eqn:Es; [|done].
    simpl. rewrite forallb_app, Hq. simpl.
    unfold facade_job, is_process_charge. simpl. rewrite Ea, Ec, Es.
    by destruct uuid.
  - by rewrite queue_park.
  - by rewrite queue_park.
  - by rewrite queue_park.
Qed.

(** X17. What waits in the queue: from the boot of the process on, in
    every interleaving, every queued job is one the creation route built
    from a validated body: of type [process_charge], with a non-zero
    amount, a non-empty currency, a truthy source, status [pending] and
    an id that starts with [ch_].  So no settlement started by the loop
    can fail on a NULL amount or currency. *)
Theorem queue_holds_facade_jobs (w : World) (s : Process) (job : Job) :
  EventLoop.steps (EventLoop.boot w) s ->
  job ∈ queue s ->
  facade_job job = true /\ insertable job = true.
Proof.
  intros Hsteps Hin.
  assert (Hall : forallb facade_job (queue s) = true).
  { clear Hin. revert s Hsteps.
    apply (rtc_ind_r (fun s => forallb facade_job (queue s) = true)); [done|].
    intros s1 s2 _ H12 IH. by apply (step_facade_jobs s1 s2 H12). }
  rewrite forallb_forall in Hall. apply list_elem_of_In in Hin.
  specialize (Hall job Hin). split; [done|by apply facade_job_insertable].
Qed.

(** ** The event loop and the single run *)






(** X20. The creation route refuses a body whose amount is missing or
    zero, whose currency is missing or empty, or whose source is falsy:
    the answer is 400 and the process is otherwise exactly as it was,
    nothing enqueued, nothing logged, nothing sent to the store.  Every
    other body is accepted with 202 and exactly one job enqueued. *)
Theorem create_refuses_or_enqueues (uuid m : string) (body : Body) (s : Process) :
  let bad := b_amount body = None \/ b_amount body = Some 0 \/
             b_currency body = None \/ b_currency body = Some ""%string \/
             truthy (b_source body) = false in
  (bad ->
   Charges.create uuid m body s
   = respond (mkRes 400 (ErrorBody "Amount, currency, and source are required.")) s) /\
  (~ bad ->
   exists job,
     queue (Charges.create uuid m body s) = queue s ++ [job] /\
     facade_job job = true /\
     d_id (j_data job) = "ch_" +:+ uuid /\
     d_merchant_id (j_data job) = m /\
     d_source (j_data job) = b_source body /\
     exists c, responses (Charges.create uuid m body s)
               = responses s ++ [mkRes 202 (ChargeBody c)]).
Proof.
  intros bad. subst bad. unfold Charges.create, Charges.validateCharge. split.
  - intros [H|[H|[H|[H|H]]]]; rewrite H; simpl; try done.
    all: by rewrite ?orb_true_r.
  - intros Hok.
    destruct (b_amount body) as [a|] eqn:Ea; [|destruct Hok; auto].
    destruct (b_currency body) as [c|] eqn:Ec; [|destruct Hok; auto].
    destruct (truthy (b_source body)) eqn:Es; [|destruct Hok; auto 6].
    assert (Ha : (a =? 0) = false).
    { apply Z.eqb_neq. intros ->. destruct Hok; auto. }
    assert (Hc : String.eqb c "" = false).
    { destruct (String.eqb c "") eqn:E; [|done].
      apply String.eqb_eq in E. subst c. destruct Hok; auto 6. }
    simpl. rewrite Ha, Hc. simpl. eexists. split; [reflexivity|].
    unfold facade_job, is_process_charge. simpl. rewrite Ha, Hc, Es. simpl.
    repeat split; try done; [by destruct uuid|by eexists].
Qed.

(** ** The further properties at concrete inputs *)

Lemma queue_drain_witness :
  (play (map Enq [job_ch1; job_ch2] ++ replicate (2 + 1) Deq) process0).1
    = [job_ch1; job_ch2] /\
  queue (play (map Enq [job_ch1; job_ch2] ++ replicate (2 + 1) Deq) process0).2 = [].
Proof. apply (queue_drain process0 [job_ch1; job_ch2] 1). reflexivity. Defined.

Lemma ticks_dispatch_in_order_witness :
  let s := Queue.enqueue job_ch2 (Queue.enqueue job_other (Queue.enqueue job_ch1 process0)) in
  queue (Nat.iter 3 Worker.tick s) = [] /\
  inflight (Nat.iter 3 Worker.tick s)
    = [Settlement (Worker.processJob job_ch1); Settlement (Worker.processJob job_ch2)].
Proof.
  intros s.
  destruct (ticks_dispatch_in_order [job_ch1; job_other; job_ch2] [] s eq_refl)
    as (Hq & Hfl & _ & _).
  split; [exact Hq|exact Hfl].
Defined.

Lemma duplicate_id_refused_witness :
  exists e w',
    run (Worker.processJob job_ch1) world_foreign = (inl e, w') /\
    table w' = table world_foreign.
Proof.
  apply (duplicate_id_refused job_ch1 world_foreign
           (mkRow "ch_1" "m_2" 900 "eur" pending None None 0)); reflexivity.
Defined.



Lemma retrieve_foreign_is_absent_witness :
  (run (Charges.retrieve "ch_1" "m_1") world_foreign).1 =
    inr (mkRes 404 (ErrorBody "Charge not found or is still being processed.")).
Proof.
  apply (retrieve_foreign_is_absent "ch_1" "m_1" world_foreign
           (mkRow "ch_1" "m_2" 900 "eur" pending None None 0));
    [reflexivity|reflexivity|discriminate].
Defined.


Lemma metadata_must_be_object_witness :
  run (Charges.update_metadata "ch_7" "m_1" body1) world_authorized
  = (inr (mkRes 400 (ErrorBody "Metadata must be an object.")), world_authorized).
Proof.
  apply (metadata_must_be_object "ch_7" "m_1" body1 world_authorized).
  intros fields. discriminate.
Defined.

Lemma capture_authorized_witness :
  (run (Charges.capture "ch_7" "m_1") world_authorized).1
    = inr (mkRes 200 (RowBody (Some (set_status captured row_authorized)))) /\
  (run (Charges.capture "ch_7" "m_1")
       (run (Charges.capture "ch_7" "m_1") world_authorized).2).1
    = inr (mkRes 400 (ErrorBody "Charge cannot be captured: Status is not authorized.")).
Proof.
  destruct (capture_authorized "ch_7" "m_1" world_authorized row_authorized
              eq_refl eq_refl eq_refl eq_refl) as (H1 & _ & _ & H2 & _).
  split; [exact H1|exact H2].
Defined.


Lemma store_down_is_500_witness :
  (run (Charges.retrieve "ch_7" "m_1")
       (mkWorld (table world_authorized) 0 [true] [] merchants0)).1
    = inr (mkRes 500 (ErrorBody "Internal Server Error")).
Proof.
  destruct (store_down_is_500 "ch_7" "m_1" body_metadata
              (mkWorld (table world_authorized) 0 [true] [] merchants0) [] eq_refl eq_refl eq_refl)
    as ((H1 & _) & _).
  exact H1.
Defined.

Lemma capture_update_failure_witness :
  (run (Charges.capture "ch_7" "m_1")
       (mkWorld (table world_authorized) 0 [false; true] [] merchants0)).1
    = inr (mkRes 500 (ErrorBody "Internal Server Error")) /\
  table (run (Charges.capture "ch_7" "m_1")
           (mkWorld (table world_authorized) 0 [false; true] [] merchants0)).2
    = table world_authorized.
Proof.
  destruct (capture_update_failure "ch_7" "m_1"
              (mkWorld (table world_authorized) 0 [false; true] [] merchants0)
              row_authorized [] eq_refl eq_refl eq_refl eq_refl) as (H1 & H2 & _).
  split; [exact H1|exact H2].
Defined.

Lemma capture_out_of_reach_witness :
  let r := mkRow "ch_u1" "m_1" 500 "usd" pending None None 0 in
  table (world process_pending) !! "ch_u1"%string = Some r /\
  (c_status r = pending \/ c_status r = succeeded \/ c_status r = failed).
Proof.
  intros r. split; [reflexivity|].
  apply (capture_out_of_reach world0 process_pending "ch_u1" r).
  - intros id r0 H. simpl in H. rewrite lookup_empty in H. discriminate.
  - eapply rtc_l; [apply (EventLoop.step_create _ "u1" "m_1" body1); reflexivity|].
    eapply rtc_l; [apply EventLoop.step_tick; discriminate|].
    eapply rtc_l; [apply (EventLoop.step_resume _ 0); eexists; reflexivity|].
    apply rtc_refl.
  - reflexivity.
Defined.

Lemma queue_holds_facade_jobs_witness :
  let job := mkJob "process_charge"
               (mkJobData "ch_u1" "m_1" (Some 500) (Some "usd"%string) pending None
                          (JStr "valid_token")) in
  facade_job job = true /\ insertable job = true.
Proof.
  intros job.
  apply (queue_holds_facade_jobs world0 (Charges.create "u1" "m_1" body1 process0) job).
  - eapply rtc_l; [apply (EventLoop.step_create _ "u1" "m_1" body1); reflexivity|].
    apply rtc_refl.
  - apply list_elem_of_In. simpl. left. reflexivity.
Defined.



Lemma create_refuses_or_enqueues_witness :
  Charges.create "u1" "m_1"
    (mkBody (Some 0) (Some "usd"%string) (JStr "valid_token") None JUndefined) process0
  = respond (mkRes 400 (ErrorBody "Amount, currency, and source are required.")) process0.
Proof.
  apply (create_refuses_or_enqueues "u1" "m_1"
           (mkBody (Some 0) (Some "usd"%string) (JStr "valid_token") None JUndefined)
           process0).
  right. left. reflexivity.
Defined.
